(** * Proximal gradient descent (FISTA): a shallow embedding of
    [jaxopt/proximal_gradient.py] and the properties of its line search,
    iteration bodies and outer driver.

    The solver is polymorphic in the floating-point dtype of its arrays, so
    the embedding is stated over a [Scalar] interface (the arithmetic and the
    comparisons the code performs).  Two instances are given: IEEE binary64
    through Rocq's primitive floats, on which the code is run and for which
    the laws used by the invariants are proved from the specification of
    the float operations, and exact real arithmetic extended with the IEEE
    special values, which satisfies the same laws. *)

From Stdlib Require Import List Bool Arith Lia ZArith.
From Stdlib Require Import Floats.
From Stdlib Require Import Reals Lra.
Import ListNotations.

Set Implicit Arguments.

(** ** The scalar interface *)

(** The operations of a floating-point dtype that the solver uses.  The
    constants are the literals of the source ([0], [1], [1.0], [0.5], [4],
    [1e-6], [jnp.inf]) and [jnp.finfo(dtype).eps]. *)
Class Scalar : Type := {
  F : Type;
  f_zero : F;
  f_one : F;
  f_half : F;
  f_four : F;
  f_floor : F;
  f_inf : F;
  f_eps : F;
  fadd : F -> F -> F;
  fsub : F -> F -> F;
  fmul : F -> F -> F;
  fdiv : F -> F -> F;
  fopp : F -> F;
  fsqrt : F -> F;
  fle : F -> F -> bool;
  flt : F -> F -> bool
}.

Declare Scope sc_scope.
Delimit Scope sc_scope with sc.
Notation "a + b" := (fadd a b) : sc_scope.
Notation "a - b" := (fsub a b) : sc_scope.
Notation "a * b" := (fmul a b) : sc_scope.
Notation "a / b" := (fdiv a b) : sc_scope.
Notation "- a" := (fopp a) : sc_scope.
Notation "a <=? b" := (fle a b) : sc_scope.
Notation "a <? b" := (flt a b) : sc_scope.
(** Python evaluates [a > b] as [b < a]. *)
Notation "a >? b" := (flt b a) (at level 70) : sc_scope.

(** A scalar is a number when it compares with itself; for IEEE floats this
    fails exactly at NaN. *)
Definition is_number {S : Scalar} (a : F) : bool := fle a a.

(** ** Pytree utilities *)

Section TreeUtil.
Context {S : Scalar}.
Local Open Scope sc_scope.

(** A point is the sequence of its leaves' entries. *)
Definition Point : Type := list F.

(** Leaf-wise combination of two points of the same structure. *)
Fixpoint tree_multimap (f : F -> F -> F) (tree_x tree_y : Point) : Point :=
  match tree_x, tree_y with
  | a :: tree_x', b :: tree_y' => f a b :: tree_multimap f tree_x' tree_y'
  | _, _ => []
  end.

Definition tree_sum (tree_x : Point) : F :=
  fold_left fadd tree_x f_zero.

(** Modelled from the spec: [jaxopt.tree_util.tree_sub], the elementwise
    difference of two points. *)
Definition tree_sub (tree_x tree_y : Point) : Point :=
  tree_multimap fsub tree_x tree_y.

(** Modelled from the spec: [jaxopt.tree_util.tree_add_scalar_mul], the
    scalar-multiply-and-add [tree_x + scalar * tree_y]. *)
Definition tree_add_scalar_mul (tree_x : Point) (scalar : F) (tree_y : Point)
  : Point :=
  tree_multimap (fun a b => a + scalar * b) tree_x tree_y.

(** Modelled from the spec: [jaxopt.tree_util.tree_vdot], the dot product
    of two points, aggregated over the leaves. *)
Definition tree_vdot (tree_x tree_y : Point) : F :=
  tree_sum (tree_multimap fmul tree_x tree_y).

(** Modelled from the spec: [jaxopt.tree_util.tree_l2_norm], the L2 norm of
    a point, or its square when [squared] is set. *)
Definition tree_l2_norm (tree_x : Point) (squared : bool) : F :=
  let sqnorm := tree_sum (map (fun a => a * a) tree_x) in
  if squared then sqnorm else fsqrt sqnorm.
End TreeUtil.

(** ** The bounded loop *)

Section Loop.
Variable T : Type.

(** Modelled from the spec: [jaxopt.loop.while_loop] run with true early
    exit: the body is applied while the predicate holds, at most [maxiter]
    times. *)
Fixpoint while_loop_eager (cond_fun : T -> bool) (body_fun : T -> T)
    (val : T) (maxiter : nat) : T :=
  match maxiter with
  | O => val
  | S n =>
      if cond_fun val
      then while_loop_eager cond_fun body_fun (body_fun val) n
      else val
  end.

(** Modelled from the spec: [jaxopt.loop.while_loop] compiled for a
    statically fixed number of iterations: every one of the [maxiter] steps
    is taken, and a step is a no-op once the predicate fails. *)
Fixpoint while_loop_scan (cond_fun : T -> bool) (body_fun : T -> T)
    (val : T) (maxiter : nat) : T :=
  match maxiter with
  | O => val
  | S n =>
      while_loop_scan cond_fun body_fun
        (if cond_fun val then body_fun val else val) n
  end.

(** Modelled from the spec: [jaxopt.loop.while_loop], the bounded loop with
    early exit; the compiled fixed-length mode is taken when the loop is
    both unrolled and jitted. *)
Definition while_loop (cond_fun : T -> bool) (body_fun : T -> T)
    (init_val : T) (maxiter : nat) (unroll jit : bool) : T :=
  if unroll && jit
  then while_loop_scan cond_fun body_fun init_val maxiter
  else while_loop_eager cond_fun body_fun init_val maxiter.

(** The number of times the loop applies its body. *)
Fixpoint while_loop_steps (cond_fun : T -> bool) (body_fun : T -> T)
    (val : T) (maxiter : nat) : nat :=
  match maxiter with
  | O => O
  | S n =>
      if cond_fun val
      then S (while_loop_steps cond_fun body_fun (body_fun val) n)
      else O
  end.
End Loop.

(** ** The solver *)

Section ProximalGradient.
Context {S : Scalar}.
Local Open Scope sc_scope.

(** [params_fun] and [params_prox] are opaque to the solver. *)
Variables (ParamsFun ParamsProx : Type).

(** The differentiation oracle [jax.grad]; [jax.value_and_grad] pairs the
    value with it. *)
Variable jax_grad :
  (Point -> ParamsFun -> F) -> Point -> ParamsFun -> Point.

Definition jax_value_and_grad (f : Point -> ParamsFun -> F)
    (x : Point) (par : ParamsFun) : F * Point :=
  (f x par, jax_grad f x par).

Definition Prox : Type := Point -> ParamsProx -> F -> Point.

(** [prox(curr_x - curr_stepsize * curr_x_fun_grad, params_prox,
    curr_stepsize)] *)
Definition _make_prox_grad (prox : Prox) (params_prox : ParamsProx)
  : Point -> Point -> F -> Point :=
  fun curr_x curr_x_fun_grad curr_stepsize =>
    let update := tree_add_scalar_mul curr_x (- curr_stepsize) curr_x_fun_grad in
    prox update params_prox curr_stepsize.

Section Linesearch.
Variable fun_ : Point -> ParamsFun -> F.
Variable params_fun : ParamsFun.
Variable prox_grad : Point -> Point -> F -> Point.
Variable maxls : nat.
Variable stepfactor : F.
Variable unroll : bool.

Definition fun_decrease (curr_x_fun_val : F) (next_x : Point) (stepsize : F) : F :=
  stepsize * (fun_ next_x params_fun - curr_x_fun_val).

Definition condition (curr_x curr_x_fun_grad next_x : Point) (stepsize : F) : F :=
  let diff_x := tree_sub next_x curr_x in
  let sqdist := tree_l2_norm diff_x true in
  stepsize * tree_vdot diff_x curr_x_fun_grad + f_half * sqdist.

Definition ls_cond_fun (curr_x : Point) (curr_x_fun_val : F)
    (curr_x_fun_grad : Point) (args : Point * F) : bool :=
  let '(next_x, stepsize) := args in
  fun_decrease curr_x_fun_val next_x stepsize
    >? condition curr_x curr_x_fun_grad next_x stepsize + f_eps.

Definition ls_body_fun (curr_x curr_x_fun_grad : Point) (args : Point * F)
  : Point * F :=
  let stepsize := snd args in
  let next_stepsize := stepsize * stepfactor in
  let next_x := prox_grad curr_x curr_x_fun_grad next_stepsize in
  (next_x, next_stepsize).

(** The backtracking line search. *)
Definition linesearch (curr_x : Point) (curr_x_fun_val : F)
    (curr_x_fun_grad : Point) (curr_stepsize : F) : Point * F :=
  let init_x := prox_grad curr_x curr_x_fun_grad curr_stepsize in
  let init_val := (init_x, curr_stepsize) in
  while_loop (ls_cond_fun curr_x curr_x_fun_val curr_x_fun_grad)
             (ls_body_fun curr_x curr_x_fun_grad)
             init_val maxls unroll true.

(** The number of shrink attempts the search performs. *)
Definition ls_attempts (curr_x : Point) (curr_x_fun_val : F)
    (curr_x_fun_grad : Point) (curr_stepsize : F) : nat :=
  while_loop_steps (ls_cond_fun curr_x curr_x_fun_val curr_x_fun_grad)
    (ls_body_fun curr_x curr_x_fun_grad)
    (prox_grad curr_x curr_x_fun_grad curr_stepsize, curr_stepsize) maxls.
End Linesearch.

(** Makes the backtracking line search. *)
Definition _make_linesearch := linesearch.

(** The solver state without acceleration:
    [(iter_num, curr_x, curr_stepsize, error)]; the iteration count is an
    unbounded integer that starts at [0] and only grows. *)
Record pg_state : Type := PGState {
  pg_iter_num : nat;
  pg_x : Point;
  pg_stepsize : F;
  pg_error : F
}.

(** The solver state with acceleration:
    [(iter_num, curr_x, curr_y, curr_t, curr_stepsize, error)]. *)
Record apg_state : Type := APGState {
  apg_iter_num : nat;
  apg_x : Point;
  apg_y : Point;
  apg_t : F;
  apg_stepsize : F;
  apg_error : F
}.

Section Body.
Variable fun_ : Point -> ParamsFun -> F.
Variable params_fun : ParamsFun.
Variable prox : Prox.
Variable params_prox : ParamsProx.
Variable stepsize : F.
Variable maxls : nat.
Variable unroll_ls : bool.
Variable stepfactor : F.

Definition value_and_grad_fun := jax_value_and_grad fun_.
Definition grad_fun := jax_grad fun_.
Definition prox_grad := _make_prox_grad prox params_prox.
Definition pg_linesearch :=
  _make_linesearch fun_ params_fun prox_grad maxls stepfactor unroll_ls.

Definition error_fun (curr_x curr_x_fun_grad : Point) : F :=
  let next_x := prox_grad curr_x curr_x_fun_grad f_one in
  let diff_x := tree_sub next_x curr_x in
  tree_l2_norm diff_x false.

Definition _iter (curr_x : Point) (curr_x_fun_val : F)
    (curr_x_fun_grad : Point) (curr_stepsize : F) : Point * F :=
  if stepsize <=? f_zero then
    (* With line search. *)
    let '(next_x, next_stepsize) :=
      pg_linesearch curr_x curr_x_fun_val curr_x_fun_grad curr_stepsize in
    (* If step size becomes too small, we restart it to 1.0.
       Otherwise, we attempt to increase it. *)
    let next_stepsize :=
      if next_stepsize <=? f_floor then f_one
      else next_stepsize / stepfactor in
    (next_x, next_stepsize)
  else
    (* Without line search. *)
    let next_x := prox_grad curr_x curr_x_fun_grad stepsize in
    (next_x, stepsize).

Definition body_fun_proximal_gradient (args : pg_state) : pg_state :=
  let iter_num := pg_iter_num args in
  let curr_x := pg_x args in
  let curr_stepsize := pg_stepsize args in
  let '(curr_x_fun_val, curr_x_fun_grad) :=
    value_and_grad_fun curr_x params_fun in
  let '(next_x, next_stepsize) :=
    _iter curr_x curr_x_fun_val curr_x_fun_grad curr_stepsize in
  let curr_error := error_fun curr_x curr_x_fun_grad in
  PGState (iter_num + 1) next_x next_stepsize curr_error.

Definition body_fun_accelerated_proximal_gradient (args : apg_state)
  : apg_state :=
  let iter_num := apg_iter_num args in
  let curr_x := apg_x args in
  let curr_y := apg_y args in
  let curr_t := apg_t args in
  let curr_stepsize := apg_stepsize args in
  let '(curr_y_fun_val, curr_y_fun_grad) :=
    value_and_grad_fun curr_y params_fun in
  let '(next_x, next_stepsize) :=
    _iter curr_y curr_y_fun_val curr_y_fun_grad curr_stepsize in
  (* [curr_t**2] is the product [curr_t * curr_t]. *)
  let next_t :=
    f_half * (f_one + fsqrt (f_one + f_four * (curr_t * curr_t))) in
  let diff_x := tree_sub next_x curr_x in
  let next_y :=
    tree_add_scalar_mul next_x ((curr_t - f_one) / next_t) diff_x in
  let next_x_fun_grad := grad_fun next_x params_fun in
  let next_error := error_fun next_x next_x_fun_grad in
  APGState (iter_num + 1) next_x next_y next_t next_stepsize next_error.
End Body.

(** The state tuple the loop carries, by variant. *)
Definition State (acceleration : bool) : Type :=
  if acceleration then apg_state else pg_state.

(** [args[0]], [args[1]] and [args[-1]] of a state tuple. *)
Definition st_iter_num (acceleration : bool) : State acceleration -> nat :=
  match acceleration with true => apg_iter_num | false => pg_iter_num end.
Definition st_x (acceleration : bool) : State acceleration -> Point :=
  match acceleration with true => apg_x | false => pg_x end.
Definition st_error (acceleration : bool) : State acceleration -> F :=
  match acceleration with true => apg_error | false => pg_error end.
Definition st_stepsize (acceleration : bool) : State acceleration -> F :=
  match acceleration with true => apg_stepsize | false => pg_stepsize end.

(** Creates a body_fun for performing one iteration of proximal gradient. *)
Definition _make_pg_body_fun (fun_ : Point -> ParamsFun -> F)
    (params_fun : ParamsFun) (prox : Prox) (params_prox : ParamsProx)
    (stepsize : F) (maxls : nat) (acceleration : bool) (unroll_ls : bool)
    (stepfactor : F) : State acceleration -> State acceleration :=
  match acceleration with
  | true =>
      body_fun_accelerated_proximal_gradient fun_ params_fun prox
        params_prox stepsize maxls unroll_ls stepfactor
  | false =>
      body_fun_proximal_gradient fun_ params_fun prox params_prox stepsize
        maxls unroll_ls stepfactor
  end.

(** [base.OptimizeResults] *)
Record OptimizeResults : Type := MkOptimizeResults {
  res_x : Point;
  res_nit : nat;
  res_error : F
}.

Inductive solver_output : Type :=
  | Solution (x : Point)
  | SolutionInfo (r : OptimizeResults).

Section Driver.
Variable fun_ : Point -> ParamsFun -> F.
Variable init : Point.
Variable params_fun : ParamsFun.
Variable prox : Prox.
Variable params_prox : ParamsProx.
Variable stepsize : F.
Variable maxiter : nat.
Variable maxls : nat.
Variable tol : F.
Variable acceleration : bool.
Variable verbose : bool.
Variable implicit_diff : bool.
Variable ret_info : bool.

(** The loop predicate; in verbose mode it also prints
    [(iter_num, error)], which does not change its value. *)
Definition cond_fun (args : State acceleration) : bool :=
  let error := st_error acceleration args in
  error >? tol.

(** [stepfactor] is left at its default [0.5]. *)
Definition body_fun : State acceleration -> State acceleration :=
  _make_pg_body_fun fun_ params_fun prox params_prox stepsize maxls
    acceleration (negb implicit_diff) f_half.

Definition init_args : State acceleration :=
  match acceleration return State acceleration with
  | true => APGState 0 init init f_one f_one f_inf
  | false => PGState 0 init f_one f_inf
  end.

(** The final state of the outer loop. *)
Definition pg_loop : State acceleration :=
  (* We always jit unless verbose mode is enabled. *)
  let jit := negb verbose in
  (* We unroll when implicit diff is disabled or when jit is disabled. *)
  let unroll := negb implicit_diff || negb jit in
  while_loop cond_fun body_fun init_args maxiter unroll jit.

Definition _proximal_gradient : solver_output :=
  let res := pg_loop in
  if ret_info then
    SolutionInfo (MkOptimizeResults (st_x acceleration res)
                    (st_iter_num acceleration res)
                    (st_error acceleration res))
  else
    Solution (st_x acceleration res).
End Driver.

(** The objective as the caller gives it: a scalar, or a pair of the
    scalar and auxiliary data when [has_aux] is set. *)
Definition Objective (Aux : Type) (has_aux : bool) : Type :=
  Point -> ParamsFun -> if has_aux then (F * Aux)%type else F.

(** [make_solver_fun(...)(params_fun, params_prox)].  The implicit
    differentiation wrapper changes how the solver is differentiated, not
    the value it returns. *)
Definition make_solver_fun (Aux : Type) (has_aux : bool)
    (fun_ : Objective Aux has_aux) (prox : Prox) (init : Point)
    (stepsize : F) (maxiter maxls : nat) (tol : F)
    (acceleration verbose implicit_diff ret_info : bool)
  : ParamsFun -> ParamsProx -> solver_output :=
  let _fun : Point -> ParamsFun -> F :=
    match has_aux return Objective Aux has_aux -> Point -> ParamsFun -> F with
    | true => fun f x par => fst (f x par)
    | false => fun f => f
    end fun_ in
  fun params_fun params_prox =>
    _proximal_gradient _fun init params_fun prox params_prox stepsize
      maxiter maxls tol acceleration verbose implicit_diff ret_info.
End ProximalGradient.

(** ** Reachable states *)

Section Reachable.
Context {S : Scalar}.
Variables (ParamsFun ParamsProx : Type).
Variable jax_grad : (Point -> ParamsFun -> F) -> Point -> ParamsFun -> Point.
Variable fun_ : Point -> ParamsFun -> F.
Variable init : Point.
Variable params_fun : ParamsFun.
Variable prox : Prox ParamsProx.
Variable params_prox : ParamsProx.
Variable stepsize : F.
Variable maxls : nat.
Variable acceleration : bool.
Variable implicit_diff : bool.

(** The states the iteration body produces from the initial state. *)
Inductive reachable : State acceleration -> Prop :=
| reachable_init : reachable (init_args init acceleration)
| reachable_step : forall s,
    reachable s ->
    reachable (body_fun jax_grad fun_ params_fun prox params_prox stepsize
                 maxls acceleration implicit_diff s).

(** The momentum coefficient of a state is at least one; a state without
    acceleration carries none. *)
Definition momentum_ok : State acceleration -> Prop :=
  match acceleration return State acceleration -> Prop with
  | true => fun s => fle f_one (apg_t s) = true
  | false => fun _ => True
  end.
End Reachable.

(** ** IEEE binary64 *)

(** The dtype [float64], on Rocq's primitive floats; [f_floor] is the
    binary64 value of the literal [1e-6] and [f_eps] is [2^-52]. *)
Definition binary64 : Scalar := {|
  F := float;
  f_zero := 0%float;
  f_one := 1%float;
  f_half := 0.5%float;
  f_four := 4%float;
  f_floor := 0x1.0c6f7a0b5ed8dp-20%float;
  f_inf := infinity;
  f_eps := 0x1p-52%float;
  fadd := PrimFloat.add;
  fsub := PrimFloat.sub;
  fmul := PrimFloat.mul;
  fdiv := PrimFloat.div;
  fopp := PrimFloat.opp;
  fsqrt := PrimFloat.sqrt;
  fle := PrimFloat.leb;
  flt := PrimFloat.ltb
|}.

(** ** Magnitudes of binary64 values *)

(** What [SpecFloat] computes a binary64 operation from: a mantissa [m] and
    an exponent [e], standing for [m * 2^e], before and after rounding. *)

(** The value [m * 2^e] of a mantissa [m >= 1] is at least [2^k] (where
    [k < e] the power [2 ^ (k - e)] is [0] on [Z], and [m >= 1] says it). *)
Definition above (k m e : Z) : Prop :=
  (1 <= m /\ 2 ^ (k - e) <= m)%Z.

(** A float that is [+inf], or positive and at least [2^k]. *)
Definition atleast (k : Z) (x : spec_float) : Prop :=
  match x with
  | S754_infinity false => True
  | S754_finite false m e => (2 ^ (k - e) <= Zpos m)%Z
  | _ => False
  end.

(** A float that is [+0], [-0], positive or [+inf]. *)
Definition nonneg (x : spec_float) : Prop :=
  match x with
  | S754_zero _ | S754_infinity false | S754_finite false _ _ => True
  | _ => False
  end.

(** ** Exact real arithmetic with the IEEE special values *)

Inductive xreal : Type :=
| XNaN
| XInf (negative : bool)
| XFin (r : R).

Definition Rleb (a b : R) : bool := if Rle_dec a b then true else false.
Definition Rltb (a b : R) : bool := if Rlt_dec a b then true else false.
Definition Reqb (a b : R) : bool := if Req_dec_T a b then true else false.

Definition xopp (a : xreal) : xreal :=
  match a with
  | XNaN => XNaN
  | XInf s => XInf (negb s)
  | XFin r => XFin (- r)
  end.

Definition xadd (a b : xreal) : xreal :=
  match a, b with
  | XNaN, _ | _, XNaN => XNaN
  | XInf s, XInf s' => if Bool.eqb s s' then XInf s else XNaN
  | XInf s, XFin _ | XFin _, XInf s => XInf s
  | XFin r, XFin r' => XFin (r + r')
  end.

Definition xsub (a b : xreal) : xreal := xadd a (xopp b).

Definition xmul (a b : xreal) : xreal :=
  match a, b with
  | XNaN, _ | _, XNaN => XNaN
  | XInf s, XInf s' => XInf (xorb s s')
  | XInf s, XFin r | XFin r, XInf s =>
      if Reqb r 0 then XNaN else XInf (xorb s (Rltb r 0))
  | XFin r, XFin r' => XFin (r * r')
  end.

Definition xdiv (a b : xreal) : xreal :=
  match a, b with
  | XNaN, _ | _, XNaN => XNaN
  | XInf _, XInf _ => XNaN
  | XInf s, XFin r => XInf (xorb s (Rltb r 0))
  | XFin _, XInf _ => XFin 0
  | XFin r, XFin r' =>
      if Reqb r' 0
      then (if Reqb r 0 then XNaN else XInf (Rltb r 0))
      else XFin (r / r')
  end.

Definition xsqrt (a : xreal) : xreal :=
  match a with
  | XNaN => XNaN
  | XInf s => if s then XNaN else XInf false
  | XFin r => if Rltb r 0 then XNaN else XFin (sqrt r)
  end.

Definition xle (a b : xreal) : bool :=
  match a, b with
  | XNaN, _ | _, XNaN => false
  | XInf s, XInf s' => implb s' s
  | XInf s, XFin _ => s
  | XFin _, XInf s => negb s
  | XFin r, XFin r' => Rleb r r'
  end.

Definition xlt (a b : xreal) : bool :=
  match a, b with
  | XNaN, _ | _, XNaN => false
  | XInf s, XInf s' => s && negb s'
  | XInf s, XFin _ => s
  | XFin _, XInf s => negb s
  | XFin r, XFin r' => Rltb r r'
  end.

(** Arithmetic without rounding: the machine epsilon is zero. *)
Definition exact : Scalar := {|
  F := xreal;
  f_zero := XFin 0;
  f_one := XFin 1;
  f_half := XFin (1 / 2);
  f_four := XFin 4;
  f_floor := XFin (1 / 1000000);
  f_inf := XInf false;
  f_eps := XFin 0;
  fadd := xadd;
  fsub := xsub;
  fmul := xmul;
  fdiv := xdiv;
  fopp := xopp;
  fsqrt := xsqrt;
  fle := xle;
  flt := xlt
|}.

(** ** Laws of the scalar arithmetic *)

(** The comparisons order the numbers totally; only NaN escapes them. *)
Record CompareLaws (S : Scalar) : Prop := {
  lt_is_number : forall a b : F,
    flt a b = true -> is_number a = true /\ is_number b = true;
  lt_not_le : forall a b : F, flt a b = true -> fle b a = false;
  not_lt_le : forall a b : F,
    is_number a = true -> is_number b = true ->
    flt b a = false -> fle a b = true
}.

(** Monotone facts about the arithmetic that the invariants of the solver
    state rest on.  They hold of binary64 in round-to-nearest and of exact
    arithmetic alike, NaN being excluded by their premises. *)
Record ArithLaws (S : Scalar) : Prop := {
  one_pos : flt f_zero f_one = true;
  pos_nonneg : forall a : F, flt f_zero a = true -> fle f_zero a = true;
  shrink_nonneg : forall a : F,
    fle f_zero a = true -> fle f_zero (fmul a f_half) = true;
  grow_pos : forall a : F,
    fle f_zero a = true -> fle a f_floor = false ->
    flt f_zero (fdiv a f_half) = true;
  sqrt_sign : forall a : F,
    fle f_zero (fsqrt a) = true \/ is_number (fsqrt a) = false;
  inf_nonneg : fle f_zero f_inf = true;
  one_le_one : fle f_one f_one = true;
  square_ge_one : forall a : F,
    fle f_one a = true -> fle f_one (fmul a a) = true;
  four_mul : forall a : F,
    fle f_one a = true -> fle f_four (fmul f_four a) = true;
  one_add : forall a : F,
    fle f_four a = true -> fle f_four (fadd f_one a) = true;
  sqrt_ge_one : forall a : F,
    fle f_four a = true -> fle f_one (fsqrt a) = true;
  half_one_add : forall a : F,
    fle f_one a = true -> fle f_one (fmul f_half (fadd f_one a)) = true
}.

(** ** Example problems on binary64 *)

(** The objective [sum(sqrt(x))], defined where [x >= 0], and its
    derivative [0.5 / sqrt(x)]. *)
Definition sqrt_sum (x : list float) (_ : unit) : float :=
  @tree_sum binary64 (map PrimFloat.sqrt x).

Definition sqrt_sum_grad (_ : list float -> unit -> float)
    (x : list float) (_ : unit) : list float :=
  map (fun a => PrimFloat.div 0.5%float (PrimFloat.sqrt a)) x.

(** The objective [0.5 * (x - 3)^2] of the spec's scenario and its
    derivative [x - 3]. *)
Definition quadratic (x : list float) (_ : unit) : float :=
  @tree_sum binary64
    (map (fun a => 0.5 * ((a - 3) * (a - 3)))%float x).

Definition quadratic_grad (_ : list float -> unit -> float)
    (x : list float) (_ : unit) : list float :=
  map (fun a => a - 3)%float x.

(** No proximal term: the prox is the identity at every scale. *)
Definition prox_none (x : list float) (_ : unit) (_ : float) : list float := x.

(** The prox-gradient step without a proximal term. *)
Definition prox_grad_none : list float -> list float -> float -> list float :=
  @_make_prox_grad binary64 unit prox_none tt.

(** The final state of the solver on [sqrt_sum] and on [quadratic], with
    [maxiter = 500], [maxls = 15], jitted and implicitly differentiated. *)
Definition sqrt_sum_loop (init : list float) (stepsize tol : float)
    (acceleration : bool) : @State binary64 acceleration :=
  @pg_loop binary64 unit unit sqrt_sum_grad sqrt_sum init tt prox_none tt
    stepsize 500 15 tol acceleration false true.

Definition quadratic_loop (init : list float) (stepsize tol : float)
    (acceleration : bool) : @State binary64 acceleration :=
  @pg_loop binary64 unit unit quadratic_grad quadratic init tt prox_none tt
    stepsize 500 15 tol acceleration false true.

(** Modelled from the spec: the soft-threshold prox of [lam * |x|] of the
    second scenario, [sign(x) * relu(|x| - lam * scaling)] leaf by leaf.
    The sign of a zero is that zero and the sign of NaN is NaN; [relu] is
    the maximum with [0], which is NaN at NaN. *)
Definition soft_threshold (x : list float) (lam scaling : float)
  : list float :=
  map (fun v =>
         let shrunk := (abs v - lam * scaling)%float in
         let magnitude :=
           if (0 <? shrunk)%float then shrunk
           else if (shrunk <=? 0)%float then 0%float else shrunk in
         let sign :=
           if (0 <? v)%float then 1%float
           else if (v <? 0)%float then (-1)%float else v in
         (sign * magnitude)%float) x.

(** The final state of the solver on [quadratic] with the regulariser
    [|x|], threshold [1.0]. *)
Definition lasso_loop (init : list float) (stepsize tol : float)
    (acceleration : bool) : @State binary64 acceleration :=
  @pg_loop binary64 unit float quadratic_grad quadratic init tt
    soft_threshold 1%float stepsize 500 15 tol acceleration false true.

(** ** An example problem in exact arithmetic *)

(** The zero objective and its gradient. *)
Definition zero_objective (x : list xreal) (_ : unit) : xreal := XFin 0.

Definition zero_objective_grad (_ : list xreal -> unit -> xreal)
    (x : list xreal) (_ : unit) : list xreal :=
  map (fun _ => XFin 0) x.

Definition xprox_none (x : list xreal) (_ : unit) (_ : xreal) : list xreal :=
  x.

(** * Properties *)

(** ** The bounded loop *)

Section LoopFacts.
Variable T : Type.
Variable cond_fun : T -> bool.
Variable body_fun : T -> T.

Lemma while_loop_scan_fixed (n : nat) (val : T) :
  cond_fun val = false -> while_loop_scan cond_fun body_fun val n = val.
Proof.
  induction n as [|n IH]; simpl; intros H; [reflexivity|].
  rewrite H. now apply IH.
Qed.

(** The fixed-length mode and true early exit compute the same state. *)
Lemma while_loop_scan_eager (n : nat) (val : T) :
  while_loop_scan cond_fun body_fun val n
  = while_loop_eager cond_fun body_fun val n.
Proof.
  revert val. induction n as [|n IH]; intros val; simpl; [reflexivity|].
  destruct (cond_fun val) eqn:E.
  - apply IH.
  - now apply while_loop_scan_fixed.
Qed.

Lemma while_loop_eq_eager (val : T) (n : nat) (unroll jit : bool) :
  while_loop cond_fun body_fun val n unroll jit
  = while_loop_eager cond_fun body_fun val n.
Proof.
  unfold while_loop. destruct (unroll && jit); [apply while_loop_scan_eager|reflexivity].
Qed.

(** The loop returns its body iterated as often as it stepped. *)
Lemma while_loop_eager_iter (n : nat) (val : T) :
  while_loop_eager cond_fun body_fun val n
  = Nat.iter (while_loop_steps cond_fun body_fun val n) body_fun val.
Proof.
  revert val. induction n as [|n IH]; intros val; simpl; [reflexivity|].
  destruct (cond_fun val); [|reflexivity].
  rewrite IH. symmetry. apply Nat.iter_succ_r.
Qed.

Lemma while_loop_steps_le (n : nat) (val : T) :
  while_loop_steps cond_fun body_fun val n <= n.
Proof.
  revert val. induction n as [|n IH]; intros val; simpl; [lia|].
  destruct (cond_fun val); [|lia]. specialize (IH (body_fun val)). lia.
Qed.

(** At exit the cap was reached or the predicate fails. *)
Lemma while_loop_exit (n : nat) (val : T) :
  while_loop_steps cond_fun body_fun val n = n
  \/ cond_fun (while_loop_eager cond_fun body_fun val n) = false.
Proof.
  revert val. induction n as [|n IH]; intros val; simpl; [now left|].
  destruct (cond_fun val) eqn:E; [|now right].
  destruct (IH (body_fun val)) as [H|H]; [left; lia|now right].
Qed.

Lemma iter_invariant (P : T -> Prop) (k : nat) (val : T) :
  P val -> (forall s, P s -> P (body_fun s)) -> P (Nat.iter k body_fun val).
Proof.
  intros H0 Hstep. induction k as [|k IH]; simpl; auto.
Qed.
End LoopFacts.

(** ** Comparisons on binary64 *)

Lemma SFcompare_antisym (a b : spec_float) :
  SFcompare a b = option_map CompOpp (SFcompare b a).
Proof.
  destruct a as [sa|sa| |sa ma ea], b as [sb|sb| |sb mb eb]; simpl;
    try reflexivity; try (destruct sa; reflexivity);
    try (destruct sb; reflexivity); try (destruct sa, sb; reflexivity).
  change (IntDef.Z.compare) with Z.compare.
  change (PosDef.Pos.compare_cont Eq) with Pos.compare.
  rewrite (Z.compare_antisym ea eb), (Pos.compare_antisym ma mb).
  destruct sa, sb; simpl; try reflexivity;
    destruct (Z.compare ea eb); simpl; try reflexivity;
    destruct (Pos.compare ma mb); reflexivity.
Qed.

Lemma SFcompare_self (a : spec_float) :
  a <> S754_nan -> SFcompare a a = Some Eq.
Proof.
  destruct a as [s|s| |s m e]; simpl; intros H; try congruence.
  - destruct s; reflexivity.
  - change (IntDef.Z.compare) with Z.compare.
    change (PosDef.Pos.compare_cont Eq) with Pos.compare.
    rewrite Z.compare_refl, Pos.compare_refl. destruct s; reflexivity.
Qed.

Lemma SFcompare_some (a b : spec_float) (c : comparison) :
  SFcompare a b = Some c -> a <> S754_nan /\ b <> S754_nan.
Proof.
  destruct a, b; simpl; intros H; split; congruence.
Qed.

Lemma SFcompare_none (a b : spec_float) :
  SFcompare a b = None -> a = S754_nan \/ b = S754_nan.
Proof.
  destruct a, b; simpl; intros H; auto; discriminate.
Qed.

Lemma SFleb_self (a : spec_float) : SFleb a a = true -> a <> S754_nan.
Proof. intros H ->. discriminate. Qed.

(** IEEE comparisons order the binary64 numbers totally. *)
Lemma binary64_compare_laws : CompareLaws binary64.
Proof.
  split; unfold is_number; simpl; intros a b;
    rewrite ?ltb_spec, ?leb_spec; unfold SFltb, SFleb.
  - destruct (SFcompare (Prim2SF a) (Prim2SF b)) as [c|] eqn:E; [|discriminate].
    intros _. apply SFcompare_some in E as [Ha Hb].
    rewrite !SFcompare_self by assumption. auto.
  - rewrite (SFcompare_antisym (Prim2SF b)).
    destruct (SFcompare (Prim2SF a) (Prim2SF b)) as [[]|]; simpl; congruence.
  - intros Ha Hb. apply SFleb_self in Ha, Hb.
    rewrite (SFcompare_antisym (Prim2SF b)).
    destruct (SFcompare (Prim2SF a) (Prim2SF b)) as [[]|] eqn:E; simpl;
      try congruence.
    apply SFcompare_none in E. tauto.
Qed.

(** ** Rounding on binary64 *)

(** Rocq specifies each primitive float operation by its [SpecFloat]
    counterpart, which computes an exact mantissa and exponent and rounds
    them to nearest with [binary_round_aux]: two right shifts to the
    exponent of the format around a rounding of the mantissa.  A shift
    divides the mantissa by a power of two, and neither a shift nor the
    rounding takes a value that is at least [2^k] below [2^k], for [k] in
    the range of the format. *)

Unset Implicit Arguments.
Section RoundingFacts.
Local Open Scope Z_scope.

Lemma digits2_pos_bounds (p : positive) :
  2 ^ (Zpos (digits2_pos p) - 1) <= Zpos p < 2 ^ Zpos (digits2_pos p).
Proof.
  induction p as [p IH|p IH|]; simpl digits2_pos;
    rewrite ?Pos2Z.inj_succ.
  - replace (Z.succ (Zpos (digits2_pos p)) - 1)
      with (Z.succ (Zpos (digits2_pos p) - 1)) by lia.
    rewrite !Z.pow_succ_r by lia. lia.
  - replace (Z.succ (Zpos (digits2_pos p)) - 1)
      with (Z.succ (Zpos (digits2_pos p) - 1)) by lia.
    rewrite !Z.pow_succ_r by lia. lia.
  - simpl. lia.
Qed.

Lemma shr_1_m (mrs : shr_record) :
  0 <= shr_m mrs -> shr_m (shr_1 mrs) = shr_m mrs / 2.
Proof.
  intros H. rewrite <- Z.div2_div.
  destruct mrs as [[|[p|p|]|p] r s]; simpl in *; try reflexivity; lia.
Qed.

Lemma pow2_xO (p : positive) : 2 ^ Zpos p~0 = 2 ^ Zpos p * 2 ^ Zpos p.
Proof.
  rewrite (Pos2Z.inj_xO p). replace (2 * Zpos p) with (Zpos p + Zpos p) by lia.
  apply Z.pow_add_r; lia.
Qed.

Lemma pow2_xI (p : positive) : 2 ^ Zpos p~1 = 2 * (2 ^ Zpos p * 2 ^ Zpos p).
Proof.
  rewrite (Pos2Z.inj_xI p). replace (2 * Zpos p + 1) with (Z.succ (Zpos p + Zpos p)) by lia.
  rewrite Z.pow_succ_r, Z.pow_add_r by lia. reflexivity.
Qed.

Lemma iter_shr_1_m (p : positive) (mrs : shr_record) :
  0 <= shr_m mrs ->
  shr_m (SpecFloat.iter_pos shr_1 p mrs) = shr_m mrs / 2 ^ Zpos p.
Proof.
  revert mrs. induction p as [p IH|p IH|]; intros mrs H; simpl SpecFloat.iter_pos.
  - assert (Hp : 0 < 2 ^ Zpos p) by (apply Z.pow_pos_nonneg; lia).
    assert (H1 : 0 <= shr_m (shr_1 mrs)).
    { rewrite shr_1_m by exact H. apply Z.div_pos; lia. }
    assert (H2 : 0 <= shr_m (SpecFloat.iter_pos shr_1 p (shr_1 mrs))).
    { rewrite IH by exact H1. apply Z.div_pos; lia. }
    rewrite IH by exact H2. rewrite IH by exact H1. rewrite shr_1_m by exact H.
    rewrite !Z.div_div by lia. rewrite pow2_xI. f_equal.
  - assert (Hp : 0 < 2 ^ Zpos p) by (apply Z.pow_pos_nonneg; lia).
    assert (H2 : 0 <= shr_m (SpecFloat.iter_pos shr_1 p mrs)).
    { rewrite IH by exact H. apply Z.div_pos; lia. }
    rewrite IH by exact H2. rewrite IH by exact H.
    rewrite !Z.div_div by lia. rewrite pow2_xO. reflexivity.
  - rewrite shr_1_m by exact H. reflexivity.
Qed.

Lemma shr_m_shr (mrs : shr_record) (e n : Z) :
  0 <= shr_m mrs ->
  shr_m (fst (shr mrs e n)) = shr_m mrs / 2 ^ Z.max n 0
  /\ snd (shr mrs e n) = e + Z.max n 0.
Proof.
  intros H. destruct n as [|p|p]; simpl.
  - rewrite Z.div_1_r. split; lia.
  - rewrite iter_shr_1_m by exact H. split; [reflexivity|lia].
  - rewrite Z.div_1_r. split; lia.
Qed.

Lemma shr_m_of_loc (m : Z) (l : location) : shr_m (shr_record_of_loc m l) = m.
Proof. destruct l as [|[]]; reflexivity. Qed.

Lemma fexp_eq (e : Z) : fexp prec emax e = Z.max (e - 53) (-1074).
Proof. reflexivity. Qed.

Lemma shr_fexp_spec (m e : Z) (l : location) :
  0 <= m ->
  let n := Z.max (fexp prec emax (Zdigits2 m + e) - e) 0 in
  shr_m (fst (shr_fexp prec emax m e l)) = m / 2 ^ n
  /\ snd (shr_fexp prec emax m e l) = e + n.
Proof.
  intros H. cbv zeta. unfold shr_fexp.
  rewrite <- (shr_m_of_loc m l) at 3.
  apply shr_m_shr. now rewrite shr_m_of_loc.
Qed.

Lemma shr_fexp_above (k m e : Z) (l : location) :
  -1074 <= k -> above k m e ->
  above k (shr_m (fst (shr_fexp prec emax m e l)))
    (snd (shr_fexp prec emax m e l)).
Proof.
  intros Hk [H1 H2].
  destruct (shr_fexp_spec m e l ltac:(lia)) as [Em Ee]. rewrite Em, Ee.
  clear Em Ee. rewrite fexp_eq.
  destruct m as [|p|p]; try lia. simpl Zdigits2.
  pose proof (digits2_pos_bounds p) as Hd.
  set (d := Zpos (digits2_pos p)) in *.
  assert (Hd1 : 1 <= d) by (subst d; lia).
  destruct (Z.max_spec (Z.max (d + e - 53) (-1074) - e) 0) as [[Hn ->]|[Hn ->]].
  - rewrite Z.add_0_r, Z.div_1_r. split; assumption.
  - set (n := Z.max (d + e - 53) (-1074) - e) in *.
    assert (Hpn : 0 < 2 ^ n) by (apply Z.pow_pos_nonneg; lia).
    destruct (Z_le_gt_dec (e + n) k) as [Hle|Hgt].
    + assert (Hq : 2 ^ (k - (e + n)) <= Zpos p / 2 ^ n).
      { apply Z.div_le_lower_bound; [lia|].
        rewrite <- Z.pow_add_r by lia.
        replace (n + (k - (e + n))) with (k - e) by lia. exact H2. }
      split; [|exact Hq].
      assert (0 < 2 ^ (k - (e + n))) by (apply Z.pow_pos_nonneg; lia). lia.
    + assert (En : n = d - 53) by lia.
      assert (Hq : 2 ^ 52 <= Zpos p / 2 ^ n).
      { apply Z.div_le_lower_bound; [lia|].
        rewrite <- Z.pow_add_r by lia.
        replace (n + 52) with (d - 1) by lia. lia. }
      unfold above. rewrite (Z.pow_neg_r 2 (k - (e + n))) by lia.
      assert (0 < 2 ^ 52) by (apply Z.pow_pos_nonneg; lia). lia.
Qed.

Lemma round_nearest_even_bounds (m : Z) (l : location) :
  m <= round_nearest_even m l <= m + 1.
Proof.
  destruct l as [|[]]; simpl; try lia. destruct (Z.even m); lia.
Qed.

Lemma above_mono (k m m' e : Z) : above k m e -> m <= m' -> above k m' e.
Proof. unfold above. lia. Qed.

Lemma binary_round_aux_atleast (k m e : Z) (l : location) :
  -1074 <= k -> above k m e ->
  atleast k (binary_round_aux prec emax false m e l).
Proof.
  intros Hk H. unfold binary_round_aux.
  pose proof (shr_fexp_above _ _ _ l Hk H) as H1.
  destruct (shr_fexp prec emax m e l) as [mrs' e'] eqn:E1. simpl in H1.
  pose proof (round_nearest_even_bounds (shr_m mrs') (loc_of_shr_record mrs')) as Hr.
  pose proof (shr_fexp_above _ _ _ loc_Exact Hk
                (above_mono _ _ _ _ H1 (proj1 Hr))) as H2.
  destruct (shr_fexp prec emax _ e' loc_Exact) as [mrs'' e''] eqn:E2.
  simpl in H2. destruct H2 as [H2 H3].
  destruct (shr_m mrs'') as [|q|q]; try lia.
  destruct (e'' <=? emax - prec); simpl; [exact H3|exact I].
Qed.

Lemma binary_round_aux_nonneg (m e : Z) (l : location) :
  0 <= m -> nonneg (binary_round_aux prec emax false m e l).
Proof.
  intros H. unfold binary_round_aux.
  destruct (shr_fexp_spec m e l H) as [Em _].
  destruct (shr_fexp prec emax m e l) as [mrs' e'] eqn:E1. simpl in Em.
  assert (H1 : 0 <= shr_m mrs').
  { rewrite Em. apply Z.div_pos; [lia|]. apply Z.pow_pos_nonneg; lia. }
  pose proof (round_nearest_even_bounds (shr_m mrs') (loc_of_shr_record mrs')) as Hr.
  destruct (shr_fexp_spec (round_nearest_even (shr_m mrs') (loc_of_shr_record mrs'))
              e' loc_Exact ltac:(lia)) as [Em2 _].
  destruct (shr_fexp prec emax _ e' loc_Exact) as [mrs'' e''] eqn:E2.
  simpl in Em2.
  assert (H2 : 0 <= shr_m mrs'').
  { rewrite Em2. apply Z.div_pos; [lia|]. apply Z.pow_pos_nonneg; lia. }
  destruct (shr_m mrs'') as [|q|q]; try lia; simpl; [exact I|].
  destruct (e'' <=? _); exact I.
Qed.

Lemma pow2_pos (n : Z) : 0 <= n -> 0 < 2 ^ n.
Proof. intros H. apply Z.pow_pos_nonneg; lia. Qed.

Lemma pow2_le (a b : Z) : a <= b -> 2 ^ a <= 2 ^ b.
Proof.
  intros H. destruct (Z_lt_le_dec a 0) as [Ha|Ha].
  - rewrite (Z.pow_neg_r 2 a) by lia. apply Z.pow_nonneg; lia.
  - apply Z.pow_le_mono_r; lia.
Qed.

Lemma above_weaken (k k' m e : Z) : k' <= k -> above k m e -> above k' m e.
Proof.
  intros H [H1 H2]. split; [exact H1|].
  pose proof (pow2_le (k' - e) (k - e)). lia.
Qed.

Lemma above_mul (k1 k2 m1 e1 m2 e2 : Z) :
  above k1 m1 e1 -> above k2 m2 e2 -> above (k1 + k2) (m1 * m2) (e1 + e2).
Proof.
  intros [A1 A2] [B1 B2]. split; [nia|].
  replace (k1 + k2 - (e1 + e2)) with ((k1 - e1) + (k2 - e2)) by lia.
  set (a := k1 - e1) in *. set (b := k2 - e2) in *.
  destruct (Z_lt_le_dec a 0) as [Ha|Ha]; [|destruct (Z_lt_le_dec b 0) as [Hb|Hb]].
  - pose proof (pow2_le (a + b) b ltac:(lia)). nia.
  - pose proof (pow2_le (a + b) a ltac:(lia)). nia.
  - rewrite Z.pow_add_r by lia.
    pose proof (pow2_pos a Ha). pose proof (pow2_pos b Hb). nia.
Qed.

Lemma above_add (k m1 m2 e : Z) :
  above k m1 e -> above k m2 e -> above (k + 1) (m1 + m2) e.
Proof.
  intros [A1 A2] [B1 B2]. split; [lia|].
  destruct (Z_lt_le_dec (k - e) 0) as [H|H].
  - pose proof (pow2_le (k + 1 - e) 0 ltac:(lia)) as H0.
    change (2 ^ 0) with 1 in H0. lia.
  - replace (k + 1 - e) with (Z.succ (k - e)) by lia.
    rewrite Z.pow_succ_r by lia. lia.
Qed.

Lemma shl_align_above (k : Z) (mx : positive) (ex ex' : Z) :
  above k (Zpos mx) ex ->
  above k (Zpos (fst (shl_align mx ex ex'))) (snd (shl_align mx ex ex')).
Proof.
  intros [H1 H2]. unfold shl_align.
  destruct (ex' - ex) as [|d|d] eqn:E; simpl; try (split; assumption).
  change (PosDef.Pos.iter xO mx d) with (shift_pos d mx).
  rewrite shift_pos_correct, Z.pow_pos_fold.
  pose proof (pow2_pos (Zpos d) ltac:(lia)) as Hd.
  split; [nia|].
  destruct (Z_lt_le_dec (k - ex) 0) as [H|H].
  - pose proof (pow2_le (k - ex') (Zpos d) ltac:(lia)). nia.
  - replace (k - ex') with (Zpos d + (k - ex)) by lia.
    rewrite Z.pow_add_r by lia. nia.
Qed.

Lemma shl_align_snd (mx : positive) (ex ex' : Z) :
  ex' <= ex -> snd (shl_align mx ex ex') = ex'.
Proof.
  intros H. unfold shl_align. destruct (ex' - ex) eqn:E; simpl; lia.
Qed.

Lemma binary_round_atleast (k : Z) (m : positive) (e : Z) :
  -1074 <= k -> above k (Zpos m) e ->
  atleast k (binary_round prec emax false m e).
Proof.
  intros Hk H. unfold binary_round.
  pose proof (shl_align_above k m e
                (fexp prec emax (Zpos (digits2_pos m) + e)) H) as H'.
  destruct (shl_align _ _ _) as [mz ez]. simpl in H'.
  now apply binary_round_aux_atleast.
Qed.

Lemma atleast_above (k : Z) (m : positive) (e : Z) :
  atleast k (S754_finite false m e) -> above k (Zpos m) e.
Proof. simpl. intros H. split; [lia|exact H]. Qed.

Lemma atleast_weaken (k k' : Z) (x : spec_float) :
  k' <= k -> atleast k x -> atleast k' x.
Proof.
  intros H. destruct x as [s|[]| |[] m e]; simpl; trivial.
  intros Hx. pose proof (pow2_le (k' - e) (k - e)). lia.
Qed.

Lemma atleast_nonneg (k : Z) (x : spec_float) : atleast k x -> nonneg x.
Proof. destruct x as [s|[]| |[] m e]; simpl; trivial. Qed.

Lemma atleast_mul (k1 k2 : Z) (x y : spec_float) :
  -1074 <= k1 + k2 -> atleast k1 x -> atleast k2 y ->
  atleast (k1 + k2) (SFmul prec emax x y).
Proof.
  intros Hk.
  destruct x as [sx|[]| |[] mx ex], y as [sy|[]| |[] my ey]; simpl;
    try contradiction; trivial.
  intros Hx Hy. apply binary_round_aux_atleast; [exact Hk|].
  rewrite Pos2Z.inj_mul. apply above_mul; split; (lia || assumption).
Qed.

Lemma atleast_add_sum (k : Z) (mx : positive) (ex : Z) (my : positive)
    (ey : Z) (k' : Z) :
  -1074 <= k' ->
  (forall m1 m2 e, above k m1 e -> above k m2 e -> above k' (m1 + m2) e) ->
  atleast k (S754_finite false mx ex) -> atleast k (S754_finite false my ey) ->
  atleast k' (SFadd prec emax (S754_finite false mx ex)
                (S754_finite false my ey)).
Proof.
  intros Hk Hsum Hx Hy. apply atleast_above in Hx, Hy.
  unfold SFadd. cbv zeta.
  pose proof (shl_align_above k mx ex (Z.min ex ey) Hx) as Hx'.
  pose proof (shl_align_above k my ey (Z.min ex ey) Hy) as Hy'.
  rewrite shl_align_snd in Hx', Hy' by lia.
  pose proof (Hsum _ _ _ Hx' Hy') as H.
  simpl cond_Zopp.
  change (IntDef.Z.min ex ey) with (Z.min ex ey).
  destruct (Z.pos (fst (shl_align mx ex (Z.min ex ey)))
            + Z.pos (fst (shl_align my ey (Z.min ex ey)))) as [|p|p] eqn:E;
    try lia.
  simpl. now apply binary_round_atleast.
Qed.

Lemma atleast_add (k : Z) (x y : spec_float) :
  -1074 <= k -> atleast k x -> atleast k y ->
  atleast (k + 1) (SFadd prec emax x y).
Proof.
  intros Hk.
  destruct x as [sx|[]| |[] mx ex], y as [sy|[]| |[] my ey];
    try (simpl; contradiction); try (simpl; trivial; fail).
  apply atleast_add_sum; [lia|apply above_add].
Qed.

Lemma atleast_add_mono (kx k : Z) (x y : spec_float) :
  -1074 <= k -> atleast kx x -> atleast k y ->
  atleast k (SFadd prec emax x y).
Proof.
  intros Hk Hx Hy.
  destruct (Z_le_gt_dec kx k) as [H|H].
  - destruct x as [sx|[]| |[] mx ex], y as [sy|[]| |[] my ey];
      try (simpl in *; contradiction); try (simpl; trivial; fail).
    apply atleast_above in Hx, Hy.
    unfold SFadd. cbv zeta.
    pose proof (shl_align_above kx mx ex (Z.min ex ey) Hx) as Hx'.
    pose proof (shl_align_above k my ey (Z.min ex ey) Hy) as Hy'.
    rewrite shl_align_snd in Hx', Hy' by lia.
    simpl cond_Zopp. change (IntDef.Z.min ex ey) with (Z.min ex ey).
    assert (Hs : above k (Z.pos (fst (shl_align mx ex (Z.min ex ey)))
                          + Z.pos (fst (shl_align my ey (Z.min ex ey))))
                   (Z.min ex ey)).
    { apply (above_mono _ _ _ _ Hy'). lia. }
    destruct (Z.pos (fst (shl_align mx ex (Z.min ex ey)))
              + Z.pos (fst (shl_align my ey (Z.min ex ey)))) as [|p|p] eqn:E;
      try lia.
    simpl. now apply binary_round_atleast.
  - apply (atleast_weaken (k + 1)); [lia|].
    apply atleast_add; [lia| |exact Hy].
    apply (atleast_weaken kx); [lia|exact Hx].
Qed.

Lemma atleast_sqrt (x : spec_float) :
  atleast 0 x -> atleast 0 (SFsqrt prec emax x).
Proof.
  destruct x as [sx|[]| |[] m e]; simpl; trivial.
  intros H. unfold SFsqrt_core_binary.
  change IntDef.Z.div2 with Z.div2. change IntDef.Z.min with Z.min.
  change IntDef.Z.shiftl with Z.shiftl. change IntDef.Z.sqrtrem with Z.sqrtrem.
  set (e' := Z.min _ (Z.div2 e)).
  assert (He' : 2 * e' <= e).
  { subst e'. pose proof (Z.div2_div e). pose proof (Z.div_mod e 2). 
    pose proof (Z.mod_pos_bound e 2). lia. }
  set (m' := match e - 2 * e' with 0 => Z.pos m | Z.pos _ => _ | Z.neg _ => 0 end).
  assert (Hm' : m' = Z.pos m * 2 ^ (e - 2 * e')).
  { subst m'. destruct (e - 2 * e') as [|p|p] eqn:E; try lia.
    rewrite Z.shiftl_mul_pow2 by lia. reflexivity. }
  clearbody m'.
  pose proof (Z.sqrtrem_sqrt m') as Hq.
  destruct (Z.sqrtrem m') as [q r]. simpl in Hq. subst q.
  apply binary_round_aux_atleast; [lia|].
  pose proof (pow2_pos (e - 2 * e') ltac:(lia)) as Hs.
  assert (H1 : 1 <= m') by nia.
  split.
  - change 1 with (Z.sqrt 1). apply Z.sqrt_le_mono. exact H1.
  - destruct (Z_lt_le_dec (0 - e') 0) as [Hn|Hn].
    + rewrite Z.pow_neg_r by lia. apply Z.sqrt_nonneg.
    + pose proof (pow2_pos (0 - e') Hn) as Hp.
      rewrite <- (Z.sqrt_square (2 ^ (0 - e'))) by lia.
      apply Z.sqrt_le_mono. rewrite <- Z.pow_add_r by lia.
      rewrite Hm'. destruct (Z_lt_le_dec (- e) 0) as [Hneg|Hneg].
      * pose proof (pow2_le (0 - e' + (0 - e')) (e - 2 * e') ltac:(lia)). nia.
      * replace (0 - e' + (0 - e')) with ((- e) + (e - 2 * e')) by lia.
        rewrite Z.pow_add_r by lia. nia.
Qed.

Lemma nonneg_sqrt (x : spec_float) :
  nonneg (SFsqrt prec emax x) \/ SFsqrt prec emax x = S754_nan.
Proof.
  destruct x as [sx|[]| |[] m e]; simpl; auto.
  left. unfold SFsqrt_core_binary.
  change IntDef.Z.sqrtrem with Z.sqrtrem.
  match goal with |- context [Z.sqrtrem ?a] =>
    pose proof (Z.sqrtrem_sqrt a) as Hq; destruct (Z.sqrtrem a) as [q r] end.
  simpl in Hq. subst q. apply binary_round_aux_nonneg. apply Z.sqrt_nonneg.
Qed.

Lemma nonneg_mul (x : spec_float) (my : positive) (ey : Z) :
  nonneg x -> nonneg (SFmul prec emax x (S754_finite false my ey)).
Proof.
  destruct x as [sx|[]| |[] mx ex]; simpl; intros Hx; try contradiction;
    trivial.
  apply binary_round_aux_nonneg. lia.
Qed.

(** A canonical mantissa has at most 53 digits, and exactly 53 above the
    least exponent. *)
Lemma canonical_bounds (m : positive) (e : Z) :
  canonical_mantissa prec emax m e = true ->
  -1074 <= e /\ Zpos m < 2 ^ 53 /\ (-1074 < e -> 2 ^ 52 <= Zpos m).
Proof.
  unfold canonical_mantissa. rewrite fexp_eq. intros H.
  apply Z.eqb_eq in H.
  pose proof (digits2_pos_bounds m) as Hd.
  set (d := Zpos (digits2_pos m)) in *.
  assert (Hd53 : d <= 53) by lia.
  pose proof (pow2_le d 53 Hd53).
  repeat split; try lia.
  intros He. assert (d = 53) by lia.
  replace (d - 1) with 52 in Hd by lia. lia.
Qed.

Lemma valid_finite (s : bool) (m : positive) (e : Z) :
  valid_binary (S754_finite s m e) = true ->
  canonical_mantissa prec emax m e = true.
Proof.
  simpl. unfold bounded. intros H. apply andb_true_iff in H. tauto.
Qed.

(** Comparison with a power of two. *)
Lemma SFleb_pow2 (k : Z) (x : spec_float) :
  valid_binary x = true -> -1022 <= k ->
  SFleb (S754_finite false 4503599627370496 (k - 52)) x = true <-> atleast k x.
Proof.
  intros Hv Hk. unfold SFleb, SFcompare.
  remember 4503599627370496%positive as c eqn:Ec.
  assert (Hc : Zpos c = 2 ^ 52) by (subst c; reflexivity). clear Ec.
  destruct x as [sx|[]| |[] m e]; cbn [atleast];
    try (split; [discriminate|tauto]); try tauto.
  apply valid_finite, canonical_bounds in Hv. destruct Hv as (He & Hm & Hn).
  change (IntDef.Z.compare) with Z.compare.
  change (PosDef.Pos.compare_cont Eq) with Pos.compare.
  destruct (Z.compare_spec (k - 52) e) as [E|E|E].
  - subst e. replace (k - (k - 52)) with 52 by lia.
    destruct (Pos.compare_spec c m) as [E'|E'|E'];
      split; intros H; try reflexivity; try discriminate; lia.
  - split; [intros _|reflexivity].
    pose proof (pow2_le (k - e) 52 ltac:(lia)) as Hp. lia.
  - split; [discriminate|]. intros H.
    pose proof (pow2_le 53 (k - e) ltac:(lia)) as Hp. lia.
Qed.

Lemma SFleb_zero (x : spec_float) :
  SFleb (S754_zero false) x = true <-> nonneg x.
Proof.
  unfold SFleb. destruct x as [sx|[]| |[] m e]; simpl; split; trivial;
    try discriminate; try contradiction.
Qed.

Lemma SFltb_zero (x : spec_float) :
  atleast (-1074) x -> SFltb (S754_zero false) x = true.
Proof.
  unfold SFltb. destruct x as [sx|[]| |[] m e]; simpl; trivial;
    try contradiction.
Qed.

Lemma atleast_div_half (x : spec_float) :
  valid_binary x = true -> nonneg x -> (forall s, x <> S754_zero s) ->
  exists k, -1074 <= k
    /\ atleast k (SFdiv prec emax x (S754_finite false 4503599627370496 (-53))).
Proof.
  intros Hv Hx Hz.
  remember 4503599627370496%positive as c eqn:Ec.
  assert (Hc : Zpos c = 2 ^ 52) by (subst c; reflexivity).
  assert (Hd : Zdigits2 (Zpos c) = 53) by (subst c; reflexivity).
  clear Ec.
  destruct x as [sx|[]| |[] m e]; cbn [nonneg] in Hx; try contradiction.
  - now elim (Hz sx).
  - exists 0. split; [lia|exact I].
  - apply valid_finite in Hv.
    pose proof (canonical_bounds _ _ Hv) as (He & _ & _).
    unfold canonical_mantissa in Hv. apply Z.eqb_eq in Hv.
    exists e. split; [exact He|].
    unfold SFdiv, SFdiv_core_binary. rewrite Hd.
    change (Zdigits2 (Z.pos m)) with (Z.pos (digits2_pos m)).
    change IntDef.Z.min with Z.min. change IntDef.Z.shiftl with Z.shiftl.
    change IntDef.Z.div_eucl with Z.div_eucl.
    replace (Z.pos (digits2_pos m) + e - (53 + -53))
      with (Z.pos (digits2_pos m) + e) by lia.
    rewrite Hv.
    replace (Z.min e (e - -53)) with e by lia.
    replace (e - -53 - e) with 53 by lia. cbv zeta iota.
    rewrite Z.shiftl_mul_pow2 by lia.
    assert (Hq : fst (Z.div_eucl (Z.pos m * 2 ^ 53) (Zpos c)) = 2 * Z.pos m).
    { change (fst (Z.div_eucl (Z.pos m * 2 ^ 53) (Zpos c)))
        with ((Z.pos m * 2 ^ 53) / Zpos c).
      rewrite Hc. change (2 ^ 53) with (2 * 2 ^ 52).
      rewrite Z.mul_assoc. rewrite Z.div_mul by lia. lia. }
    destruct (Z.div_eucl (Z.pos m * 2 ^ 53) (Zpos c)) as [q r].
    cbn [fst] in Hq. subst q. cbn [xorb].
    apply binary_round_aux_atleast; [exact He|].
    split; [lia|]. rewrite Z.sub_diag. change (2 ^ 0) with 1. lia.
Qed.
Lemma atleast_pow2 (k : Z) :
  atleast k (S754_finite false 4503599627370496 (k - 52)).
Proof.
  cbn [atleast]. replace (k - (k - 52)) with 52 by lia.
  apply Z.leb_le. reflexivity.
Qed.
End RoundingFacts.
Set Implicit Arguments.

(** ** The arithmetic laws on binary64 *)

Lemma Prim2SF_zero : Prim2SF 0 = S754_zero false.
Proof. reflexivity. Qed.

Lemma Prim2SF_one :
  Prim2SF 1 = S754_finite false 4503599627370496 (0 - 52).
Proof. reflexivity. Qed.

Lemma Prim2SF_four :
  Prim2SF 4 = S754_finite false 4503599627370496 (2 - 52).
Proof. reflexivity. Qed.

Lemma Prim2SF_half :
  Prim2SF 0.5 = S754_finite false 4503599627370496 (-1 - 52).
Proof. reflexivity. Qed.

(** [1 <= a] and [4 <= a] on binary64 say that [a] is at least [2^0] and
    [2^2]; [0 <= a] says that [a] is a zero, positive or [+inf]. *)
Lemma binary64_one_le (a : float) :
  (1 <=? a)%float = true <-> atleast 0 (Prim2SF a).
Proof.
  rewrite leb_spec, Prim2SF_one.
  apply SFleb_pow2; [apply Prim2SF_valid|lia].
Qed.

Lemma binary64_four_le (a : float) :
  (4 <=? a)%float = true <-> atleast 2 (Prim2SF a).
Proof.
  rewrite leb_spec, Prim2SF_four.
  apply SFleb_pow2; [apply Prim2SF_valid|lia].
Qed.

Lemma binary64_zero_le (a : float) :
  (0 <=? a)%float = true <-> nonneg (Prim2SF a).
Proof. rewrite leb_spec, Prim2SF_zero. apply SFleb_zero. Qed.

(** The monotone facts that the invariants rest on hold of binary64 in
    round-to-nearest: rounding a value that is at least a power of two gives
    a float that is at least that power of two, overflow giving [+inf]. *)
Lemma binary64_arith_laws : ArithLaws binary64.
Proof.
  split; unfold is_number;
    cbn [F f_zero f_one f_half f_four f_floor f_inf fadd fmul fdiv fsqrt fle
         flt binary64].
  - reflexivity.
  - intros a. rewrite ltb_spec, leb_spec. unfold SFltb, SFleb.
    destruct (SFcompare _ _) as [[]|]; congruence.
  - intros a H. apply binary64_zero_le in H. apply binary64_zero_le.
    rewrite mul_spec, Prim2SF_half. now apply nonneg_mul.
  - intros a H Hfl. apply binary64_zero_le in H.
    rewrite leb_spec in Hfl.
    destruct (atleast_div_half (Prim2SF a) (Prim2SF_valid a) H)
      as (k & Hk & Hd).
    { intros s E. rewrite E in Hfl.
      destruct s; vm_compute in Hfl; discriminate. }
    rewrite ltb_spec, div_spec, Prim2SF_zero, Prim2SF_half.
    apply SFltb_zero. now apply (atleast_weaken k).
  - intros a. destruct (nonneg_sqrt (Prim2SF a)) as [H|H].
    + left. apply binary64_zero_le. now rewrite sqrt_spec.
    + right. rewrite leb_spec, sqrt_spec. unfold SF64sqrt. now rewrite H.
  - reflexivity.
  - reflexivity.
  - intros a H. apply binary64_one_le in H. apply binary64_one_le.
    rewrite mul_spec. apply (atleast_mul 0 0); (lia || assumption).
  - intros a H. apply binary64_one_le in H. apply binary64_four_le.
    rewrite mul_spec, Prim2SF_four.
    apply (atleast_mul 2 0); [lia|apply atleast_pow2|exact H].
  - intros a H. apply binary64_four_le in H. apply binary64_four_le.
    rewrite add_spec, Prim2SF_one.
    apply (atleast_add_mono 0 2); [lia|apply atleast_pow2|exact H].
  - intros a H. apply binary64_four_le in H. apply binary64_one_le.
    rewrite sqrt_spec. apply atleast_sqrt.
    apply (atleast_weaken 2); [lia|exact H].
  - intros a H. apply binary64_one_le in H. apply binary64_one_le.
    rewrite mul_spec, add_spec, Prim2SF_half, Prim2SF_one.
    apply (atleast_mul (-1) 1); [lia|apply atleast_pow2|].
    apply (atleast_add 0); [lia|apply atleast_pow2|exact H].
Qed.

(** ** The line search *)

Section LinesearchFacts.
Context {S : Scalar}.
Local Open Scope sc_scope.
Variables (ParamsFun : Type).
Variable fun_ : Point -> ParamsFun -> F.
Variable params_fun : ParamsFun.
Variable prox_grad : Point -> Point -> F -> Point.
Variable maxls : nat.
Variable stepfactor : F.
Variable unroll : bool.
Variables (curr_x : Point) (curr_x_fun_val : F) (curr_x_fun_grad : Point).
Variable curr_stepsize : F.

Let attempts : nat :=
  ls_attempts fun_ params_fun prox_grad maxls stepfactor
    curr_x curr_x_fun_val curr_x_fun_grad curr_stepsize.

Lemma linesearch_iter :
  linesearch fun_ params_fun prox_grad maxls stepfactor unroll
    curr_x curr_x_fun_val curr_x_fun_grad curr_stepsize
  = Nat.iter attempts
      (ls_body_fun prox_grad stepfactor curr_x curr_x_fun_grad)
      (prox_grad curr_x curr_x_fun_grad curr_stepsize, curr_stepsize).
Proof.
  unfold linesearch. rewrite while_loop_eq_eager. apply while_loop_eager_iter.
Qed.

Lemma ls_attempts_le : attempts <= maxls.
Proof. apply while_loop_steps_le. Qed.

(** The accepted step size is the trial one shrunk once per attempt. *)
Lemma linesearch_stepsize :
  snd (linesearch fun_ params_fun prox_grad maxls stepfactor unroll
         curr_x curr_x_fun_val curr_x_fun_grad curr_stepsize)
  = Nat.iter attempts (fun s => s * stepfactor) curr_stepsize.
Proof.
  rewrite linesearch_iter. generalize attempts as k.
  induction k as [|k IH]; simpl; [reflexivity|]. now rewrite IH.
Qed.

(** The accepted point is the prox-gradient step at the accepted size. *)
Lemma linesearch_point :
  let r := linesearch fun_ params_fun prox_grad maxls stepfactor unroll
             curr_x curr_x_fun_val curr_x_fun_grad curr_stepsize in
  fst r = prox_grad curr_x curr_x_fun_grad (snd r).
Proof.
  cbv zeta. rewrite linesearch_iter. generalize attempts as k.
  destruct k as [|k]; reflexivity.
Qed.

(** C1 (as amended).  The pair the backtracking line search returns
    satisfies the sufficient-decrease inequality
    [step * (f(x_next) - f_x) <= step * <diff, grad_x> + 0.5 * |diff|^2 + eps],
    or one side of that inequality is NaN, or the search performed all
    [maxls] shrink attempts; the pair is the initial candidate shrunk
    [ls_attempts <= maxls] times. *)
Theorem linesearch_acceptance :
  CompareLaws S ->
  let r := linesearch fun_ params_fun prox_grad maxls stepfactor unroll
             curr_x curr_x_fun_val curr_x_fun_grad curr_stepsize in
  let next_x := fst r in
  let stepsize := snd r in
  let diff_x := tree_sub next_x curr_x in
  let lhs := stepsize * (fun_ next_x params_fun - curr_x_fun_val) in
  let rhs := stepsize * tree_vdot diff_x curr_x_fun_grad
             + f_half * tree_l2_norm diff_x true + f_eps in
  attempts <= maxls
  /\ r = Nat.iter attempts
           (ls_body_fun prox_grad stepfactor curr_x curr_x_fun_grad)
           (prox_grad curr_x curr_x_fun_grad curr_stepsize, curr_stepsize)
  /\ ((lhs <=? rhs) = true
      \/ is_number lhs = false
      \/ is_number rhs = false
      \/ attempts = maxls).
Proof.
  intros L. cbv zeta. split; [apply ls_attempts_le|]. split; [apply linesearch_iter|].
  unfold linesearch. rewrite while_loop_eq_eager.
  destruct (while_loop_exit
              (ls_cond_fun fun_ params_fun curr_x curr_x_fun_val curr_x_fun_grad)
              (ls_body_fun prox_grad stepfactor curr_x curr_x_fun_grad) maxls
              (prox_grad curr_x curr_x_fun_grad curr_stepsize, curr_stepsize))
    as [Hcap|Hexit].
  - now right; right; right.
  - destruct (while_loop_eager _ _ _ _) as [next_x stepsize].
    unfold ls_cond_fun, fun_decrease, condition in Hexit. simpl.
    match goal with |- (?a <=? ?b) = true \/ _ =>
      destruct (is_number a) eqn:Ha; [|now right; left];
      destruct (is_number b) eqn:Hb; [|now right; right; left]
    end.
    left. now apply (not_lt_le L).
Qed.
End LinesearchFacts.

(** Every finite binary64 value lies below [jnp.inf]. *)
Lemma binary64_lt_inf (tol : float) :
  is_finite tol = true -> (tol <? infinity)%float = true.
Proof.
  unfold is_finite, is_nan, is_infinity.
  rewrite ltb_spec, !eqb_spec, abs_spec.
  change (Prim2SF infinity) with (S754_infinity false).
  destruct (Prim2SF tol) as [s|s| |s m e]; simpl; try reflexivity;
    try discriminate.
  destruct s; discriminate.
Qed.

(** ** The outer driver *)

Section IterNumFacts.
Context {S : Scalar}.
Variables (ParamsFun ParamsProx : Type).
Variable jax_grad : (Point -> ParamsFun -> F) -> Point -> ParamsFun -> Point.
Variable fun_ : Point -> ParamsFun -> F.
Variable params_fun : ParamsFun.
Variable prox : Prox ParamsProx.
Variable params_prox : ParamsProx.
Variable stepsize : F.
Variable maxls : nat.
Variable acceleration : bool.
Variable implicit_diff : bool.

Let body : State acceleration -> State acceleration :=
  body_fun jax_grad fun_ params_fun prox params_prox stepsize maxls
    acceleration implicit_diff.

(** Each outer step increases the iteration count by exactly one. *)
Lemma body_fun_iter_num (s : State acceleration) :
  st_iter_num acceleration (body s) = st_iter_num acceleration s + 1.
Proof.
  subst body. unfold body_fun, _make_pg_body_fun.
  destruct acceleration; simpl;
    [unfold body_fun_accelerated_proximal_gradient
    |unfold body_fun_proximal_gradient];
    simpl;
    match goal with |- context [let '(_, _) := ?e in _] => destruct e end;
    reflexivity.
Qed.

Lemma iter_body_iter_num (k : nat) (s : State acceleration) :
  st_iter_num acceleration (Nat.iter k body s)
  = st_iter_num acceleration s + k.
Proof.
  induction k as [|k IH]; simpl; [lia|].
  rewrite body_fun_iter_num, IH. lia.
Qed.

End IterNumFacts.

Section DriverFacts.
Context {S : Scalar}.
Variables (ParamsFun ParamsProx : Type).
Variable jax_grad : (Point -> ParamsFun -> F) -> Point -> ParamsFun -> Point.
Variable fun_ : Point -> ParamsFun -> F.
Variable init : Point.
Variable params_fun : ParamsFun.
Variable prox : Prox ParamsProx.
Variable params_prox : ParamsProx.
Variable stepsize : F.
Variable maxiter : nat.
Variable maxls : nat.
Variable tol : F.
Variable acceleration : bool.
Variable verbose : bool.
Variable implicit_diff : bool.
Variable ret_info : bool.

Let body : State acceleration -> State acceleration :=
  body_fun jax_grad fun_ params_fun prox params_prox stepsize maxls
    acceleration implicit_diff.
Let cond : State acceleration -> bool := cond_fun tol acceleration.
Let args : State acceleration := init_args init acceleration.
Let res : State acceleration :=
  pg_loop jax_grad fun_ init params_fun prox params_prox stepsize maxiter
    maxls tol acceleration verbose implicit_diff.

Lemma init_args_iter_num : st_iter_num acceleration args = 0.
Proof. subst args. unfold init_args. destruct acceleration; reflexivity. Qed.

Lemma init_args_error : st_error acceleration args = f_inf.
Proof. subst args. unfold init_args. destruct acceleration; reflexivity. Qed.

Lemma pg_loop_eager : res = while_loop_eager cond body args maxiter.
Proof. subst res. unfold pg_loop. apply while_loop_eq_eager. Qed.

(** The iteration count of the final state is the number of outer steps. *)
Lemma pg_loop_iter_num :
  st_iter_num acceleration res = while_loop_steps cond body args maxiter.
Proof.
  rewrite pg_loop_eager, while_loop_eager_iter.
  subst body. rewrite iter_body_iter_num, init_args_iter_num. reflexivity.
Qed.

Lemma pg_loop_iter : res = Nat.iter (st_iter_num acceleration res) body args.
Proof.
  rewrite pg_loop_iter_num, pg_loop_eager. apply while_loop_eager_iter.
Qed.

(** C2 (as amended).  For every tolerance [tol > 0] and every [maxiter] the
    outer loop ends after at most [maxiter] steps of the body, and at exit
    the error satisfies [error <= tol], or the error is NaN, or the
    iteration count equals [maxiter]; in each case the solver returns the
    final point, bare or packaged with the iteration count and the error. *)
Theorem outer_loop_exit :
  CompareLaws S ->
  (f_zero <? tol)%sc = true ->
  let nit := st_iter_num acceleration res in
  let error := st_error acceleration res in
  nit <= maxiter
  /\ res = Nat.iter nit body args
  /\ ((error <=? tol)%sc = true \/ is_number error = false \/ nit = maxiter)
  /\ _proximal_gradient jax_grad fun_ init params_fun prox params_prox
       stepsize maxiter maxls tol acceleration verbose implicit_diff ret_info
     = if ret_info
       then SolutionInfo (MkOptimizeResults (st_x acceleration res) nit error)
       else Solution (st_x acceleration res).
Proof.
  intros L Htol. cbv zeta. rewrite pg_loop_iter_num.
  split; [apply while_loop_steps_le|].
  split; [rewrite <- pg_loop_iter_num; apply pg_loop_iter|].
  split.
  - destruct (while_loop_exit cond body maxiter args) as [Hcap|Hexit];
      [now right; right|].
    rewrite <- pg_loop_eager in Hexit. subst cond. unfold cond_fun in Hexit.
    destruct (is_number (st_error acceleration res)) eqn:He; [|now right; left].
    left. apply (not_lt_le L); trivial.
    now apply (lt_is_number L) in Htol.
  - unfold _proximal_gradient. fold res. rewrite pg_loop_iter_num. reflexivity.
Qed.

(** C10.  The initial error is [+inf], so for every tolerance below it
    (every finite one) the loop predicate holds at entry: when
    [maxiter >= 1] the first iteration body is executed, whatever the
    initial point, and the initial state is returned only when
    [maxiter = 0]. *)
Theorem first_iteration_runs :
  (f_inf >? tol)%sc = true ->
  cond args = true
  /\ (maxiter = 0 -> res = args)
  /\ (1 <= maxiter ->
      res = while_loop_eager cond body (body args) (maxiter - 1)
      /\ 1 <= st_iter_num acceleration res).
Proof.
  intros Htol.
  assert (Hc : cond args = true).
  { subst cond. unfold cond_fun. now rewrite init_args_error. }
  split; [exact Hc|]. split.
  - intros Hm. rewrite pg_loop_eager, Hm. reflexivity.
  - intros Hm. rewrite pg_loop_iter_num, pg_loop_eager.
    destruct maxiter as [|n]; [lia|]. simpl. rewrite Hc, Nat.sub_0_r.
    split; [reflexivity|lia].
Qed.
End DriverFacts.

(** ** The iteration body *)

Section TreeFacts.
Context {S : Scalar}.
Local Open Scope sc_scope.

(** The norm of a difference does not depend on its orientation when the
    square of a scalar difference does not. *)
Lemma tree_l2_norm_sub_sym (squared : bool) (tree_x tree_y : Point) :
  (forall a b : F, (a - b) * (a - b) = (b - a) * (b - a)) ->
  tree_l2_norm (tree_sub tree_x tree_y) squared
  = tree_l2_norm (tree_sub tree_y tree_x) squared.
Proof.
  intros Hsym. unfold tree_l2_norm, tree_sub.
  assert (E : map (fun a => a * a) (tree_multimap fsub tree_x tree_y)
              = map (fun a => a * a) (tree_multimap fsub tree_y tree_x)).
  { revert tree_y. induction tree_x as [|a tree_x IH]; intros [|b tree_y];
      simpl; try reflexivity.
    now rewrite Hsym, IH. }
  now rewrite E.
Qed.
End TreeFacts.

Section BodyFacts.
Context {S : Scalar}.
Local Open Scope sc_scope.
Variables (ParamsFun ParamsProx : Type).
Variable jax_grad : (Point -> ParamsFun -> F) -> Point -> ParamsFun -> Point.
Variable fun_ : Point -> ParamsFun -> F.
Variable params_fun : ParamsFun.
Variable prox : Prox ParamsProx.
Variable params_prox : ParamsProx.
Variable stepsize : F.
Variable maxls : nat.
Variable unroll_ls : bool.
Variable stepfactor : F.

Let body_pg : pg_state -> pg_state :=
  body_fun_proximal_gradient jax_grad fun_ params_fun prox params_prox
    stepsize maxls unroll_ls stepfactor.
Let body_apg : apg_state -> apg_state :=
  body_fun_accelerated_proximal_gradient jax_grad fun_ params_fun prox
    params_prox stepsize maxls unroll_ls stepfactor.
Let iter_ : Point -> F -> Point -> F -> Point * F :=
  _iter fun_ params_fun prox params_prox stepsize maxls unroll_ls stepfactor.
Let gradient (x : Point) : Point := jax_grad fun_ x params_fun.
Let residual (x : Point) : F := error_fun prox params_prox x (gradient x).

(** The non-accelerated body, field by field. *)
Lemma body_pg_fields (s : pg_state) :
  let r := iter_ (pg_x s) (fun_ (pg_x s) params_fun) (gradient (pg_x s))
             (pg_stepsize s) in
  body_pg s
  = PGState (pg_iter_num s + 1) (fst r) (snd r) (residual (pg_x s)).
Proof.
  cbv zeta. subst body_pg iter_ residual gradient.
  unfold body_fun_proximal_gradient. simpl.
  match goal with |- context [let '(_, _) := ?e in _] => destruct e end.
  reflexivity.
Qed.

(** The accelerated body, field by field. *)
Lemma body_apg_fields (s : apg_state) :
  let r := iter_ (apg_y s) (fun_ (apg_y s) params_fun) (gradient (apg_y s))
             (apg_stepsize s) in
  let next_x := fst r in
  let next_t :=
    f_half * (f_one + fsqrt (f_one + f_four * (apg_t s * apg_t s))) in
  body_apg s
  = APGState (apg_iter_num s + 1) next_x
      (tree_add_scalar_mul next_x ((apg_t s - f_one) / next_t)
         (tree_sub next_x (apg_x s)))
      next_t (snd r) (residual next_x).
Proof.
  cbv zeta. subst body_apg iter_ residual gradient.
  unfold body_fun_accelerated_proximal_gradient. simpl.
  match goal with |- context [let '(_, _) := ?e in _] => destruct e end.
  reflexivity.
Qed.

(** C3.  The stopping-criterion error at a point [x] is the L2 norm of the
    difference between [x] and [prox(x - 1.0 * grad, params_prox, 1.0)], the
    fixed-point residual at unit step size (the code forms the difference as
    [prox(...) - x]; the norm of [x - prox(...)] is the same as soon as
    squares of scalar differences are symmetric).  The non-accelerated body
    stores it for the gradient of [f] at its point; the accelerated body
    evaluates it at [x_next] with the gradient of [f] taken at [x_next], not
    the one it took at [y]. *)
Theorem error_is_fixed_point_residual :
  (forall x g : Point,
      let image := prox (tree_add_scalar_mul x (- f_one) g) params_prox f_one in
      error_fun prox params_prox x g = tree_l2_norm (tree_sub image x) false
      /\ ((forall a b : F, (a - b) * (a - b) = (b - a) * (b - a)) ->
          error_fun prox params_prox x g
          = tree_l2_norm (tree_sub x image) false))
  /\ (forall s : pg_state,
         pg_error (body_pg s)
         = error_fun prox params_prox (pg_x s)
             (jax_grad fun_ (pg_x s) params_fun))
  /\ (forall s : apg_state,
         let next_x := apg_x (body_apg s) in
         apg_error (body_apg s)
         = error_fun prox params_prox next_x
             (jax_grad fun_ next_x params_fun)).
Proof.
  split; [|split].
  - intros x g. cbv zeta. split; [reflexivity|].
    intros Hsym. unfold error_fun, prox_grad, _make_prox_grad.
    now apply tree_l2_norm_sub_sym.
  - intros s. pose proof (body_pg_fields s) as E. cbv zeta in E.
    now rewrite E.
  - intros s. pose proof (body_apg_fields s) as E. cbv zeta in E |- *.
    now rewrite E.
Qed.

(** C4.  An accelerated iteration updates the momentum coefficient as
    [t_next = 0.5 * (1 + sqrt(1 + 4 * t^2))], the square being [t * t], and
    the extrapolated point as
    [y_next = x_next + ((t - 1) / t_next) * (x_next - x)], with [x] the
    previous main iterate and [x_next] the new one. *)
Theorem momentum_update (s : apg_state) :
  let t := apg_t s in
  let x := apg_x s in
  let x_next := apg_x (body_apg s) in
  let t_next := apg_t (body_apg s) in
  let y_next := apg_y (body_apg s) in
  t_next = f_half * (f_one + fsqrt (f_one + f_four * (t * t)))
  /\ y_next
     = tree_add_scalar_mul x_next ((t - f_one) / t_next) (tree_sub x_next x).
Proof.
  pose proof (body_apg_fields s) as E. cbv zeta in E |- *.
  rewrite E. simpl. split; reflexivity.
Qed.

(** C5.  When the configured step size is [<= 0], an outer iteration of
    either variant runs the backtracking line search from its current point
    ([x], or [y] under acceleration) and trial step size; the next trial
    step size is [1.0] when the accepted step size is at or below [1e-6] and
    the accepted step size divided by the shrink factor otherwise. *)
Theorem linesearch_step_adaptation :
  (stepsize <=? f_zero) = true ->
  let search :=
    linesearch fun_ params_fun (_make_prox_grad prox params_prox) maxls
      stepfactor unroll_ls in
  let adapt (accepted : F) : F :=
    if accepted <=? f_floor then f_one else accepted / stepfactor in
  (forall s : pg_state,
      let r := search (pg_x s) (fun_ (pg_x s) params_fun)
                 (jax_grad fun_ (pg_x s) params_fun) (pg_stepsize s) in
      pg_x (body_pg s) = fst r /\ pg_stepsize (body_pg s) = adapt (snd r))
  /\ (forall s : apg_state,
         let r := search (apg_y s) (fun_ (apg_y s) params_fun)
                    (jax_grad fun_ (apg_y s) params_fun) (apg_stepsize s) in
         apg_x (body_apg s) = fst r
         /\ apg_stepsize (body_apg s) = adapt (snd r)).
Proof.
  intros Hls. cbv zeta.
  assert (Hiter : forall x fx g c,
             iter_ x fx g c
             = (fst (linesearch fun_ params_fun (_make_prox_grad prox params_prox)
                       maxls stepfactor unroll_ls x fx g c),
                let a := snd (linesearch fun_ params_fun
                                (_make_prox_grad prox params_prox)
                                maxls stepfactor unroll_ls x fx g c) in
                if a <=? f_floor then f_one else a / stepfactor)).
  { intros x fx g c. subst iter_. unfold _iter. rewrite Hls.
    unfold pg_linesearch, _make_linesearch, prox_grad.
    destruct (linesearch _ _ _ _ _ _ _ _ _ _); reflexivity. }
  split; intros s.
  - pose proof (body_pg_fields s) as E. cbv zeta in E.
    rewrite E, Hiter. simpl. split; reflexivity.
  - pose proof (body_apg_fields s) as E. cbv zeta in E.
    rewrite E, Hiter. simpl. split; reflexivity.
Qed.

(** C6.  When a fixed positive step size is configured, an outer iteration
    computes its next point as
    [prox(x - stepsize * grad f(x), params_prox, stepsize)] at its current
    point ([x], or [y] under acceleration), the line search playing no part,
    and the step size of the returned state is the configured one. *)
Theorem fixed_step_iteration :
  CompareLaws S ->
  (f_zero <? stepsize) = true ->
  (forall s : pg_state,
      let x := pg_x s in
      pg_x (body_pg s)
      = prox (tree_add_scalar_mul x (- stepsize)
                (jax_grad fun_ x params_fun)) params_prox stepsize
      /\ pg_stepsize (body_pg s) = stepsize)
  /\ (forall s : apg_state,
         let y := apg_y s in
         apg_x (body_apg s)
         = prox (tree_add_scalar_mul y (- stepsize)
                   (jax_grad fun_ y params_fun)) params_prox stepsize
         /\ apg_stepsize (body_apg s) = stepsize).
Proof.
  intros L Hpos. apply (lt_not_le L) in Hpos.
  assert (Hiter : forall x fx g c,
             iter_ x fx g c
             = (prox (tree_add_scalar_mul x (- stepsize) g) params_prox stepsize,
                stepsize)).
  { intros x fx g c. subst iter_. unfold _iter. now rewrite Hpos. }
  split; intros s; cbv zeta.
  - pose proof (body_pg_fields s) as E. cbv zeta in E.
    rewrite E, Hiter. simpl. split; reflexivity.
  - pose proof (body_apg_fields s) as E. cbv zeta in E.
    rewrite E, Hiter. simpl. split; reflexivity.
Qed.
End BodyFacts.

(** ** The reported error *)

Section ReportFacts.
Context {S : Scalar}.
Variables (ParamsFun ParamsProx : Type).
Variable jax_grad : (Point -> ParamsFun -> F) -> Point -> ParamsFun -> Point.
Variable fun_ : Point -> ParamsFun -> F.
Variable init : Point.
Variable params_fun : ParamsFun.
Variable prox : Prox ParamsProx.
Variable params_prox : ParamsProx.
Variable stepsize : F.
Variable maxiter : nat.
Variable maxls : nat.
Variable tol : F.
Variable verbose : bool.
Variable implicit_diff : bool.

(** The fixed-point residual of a point, with the gradient taken there. *)
Let residual (x : Point) : F :=
  error_fun prox params_prox x (jax_grad fun_ x params_fun).
Let body (acceleration : bool) : State acceleration -> State acceleration :=
  body_fun jax_grad fun_ params_fun prox params_prox stepsize maxls
    acceleration implicit_diff.
Let res (acceleration : bool) : State acceleration :=
  pg_loop jax_grad fun_ init params_fun prox params_prox stepsize maxiter
    maxls tol acceleration verbose implicit_diff.
Let solve (acceleration : bool) : solver_output :=
  _proximal_gradient jax_grad fun_ init params_fun prox params_prox stepsize
    maxiter maxls tol acceleration verbose implicit_diff true.

Lemma pg_loop_last_step (acceleration : bool) :
  1 <= st_iter_num acceleration (res acceleration) ->
  res acceleration
  = body acceleration
      (Nat.iter (st_iter_num acceleration (res acceleration) - 1)
         (body acceleration) (init_args init acceleration)).
Proof.
  intros Hn. subst res body. cbv beta.
  rewrite pg_loop_iter at 1.
  destruct (st_iter_num acceleration _) as [|k]; [lia|].
  simpl. now rewrite Nat.sub_0_r.
Qed.

(** Below [+inf] every tolerance lets the loop run, once [maxiter] allows
    it. *)
Lemma pg_loop_runs (acceleration : bool) :
  (f_inf >? tol)%sc = true -> 1 <= maxiter ->
  1 <= st_iter_num acceleration (res acceleration).
Proof.
  intros Htol Hm. subst res. cbv beta. rewrite pg_loop_iter_num.
  assert (Hc : cond_fun tol acceleration (init_args init acceleration) = true).
  { unfold cond_fun, init_args. destruct acceleration; exact Htol. }
  destruct maxiter as [|n]; [lia|]. simpl. rewrite Hc. lia.
Qed.

(** With [maxiter = 0], or a tolerance that [+inf] does not exceed, the loop
    returns its initial state. *)
Lemma pg_loop_idle (acceleration : bool) :
  (f_inf >? tol)%sc = false \/ maxiter = 0 ->
  res acceleration = init_args init acceleration.
Proof.
  intros H. subst res. cbv beta. rewrite pg_loop_eager.
  assert (Hc : (f_inf >? tol)%sc = false ->
               cond_fun tol acceleration (init_args init acceleration) = false).
  { unfold cond_fun, init_args. destruct acceleration; trivial. }
  destruct maxiter as [|n]; [reflexivity|].
  destruct H as [H|H]; [|discriminate]. simpl. now rewrite Hc.
Qed.

(** C9 (as amended).  The error a non-accelerated iteration stores is the
    fixed-point residual of the point it started from, not of the point it
    returns; the error an accelerated iteration stores is the residual of
    the point it returns.  When the loop performs an iteration, as it does
    exactly when [tol] is below [+inf] and [maxiter >= 1], and [ret_info] is
    set, the reported error is therefore the residual of the iterate one
    step before the reported point without acceleration, and the residual
    of the reported point itself with acceleration.  When the loop performs
    no iteration the report is the initial point with count [0] and the
    initial error [+inf], in both variants. *)
Theorem reported_error_lags :
  (forall s : pg_state,
      pg_error (body false s) = residual (pg_x s))
  /\ (forall s : apg_state,
         apg_error (body true s) = residual (apg_x (body true s)))
  /\ ((f_inf >? tol)%sc = true -> 1 <= maxiter ->
      (let nit := pg_iter_num (res false) in
       let prev : pg_state :=
         Nat.iter (nit - 1) (body false) (init_args init false) in
       1 <= nit
       /\ solve false
          = SolutionInfo
              (MkOptimizeResults (pg_x (body false prev)) nit
                 (residual (pg_x prev))))
      /\ (let nit := apg_iter_num (res true) in
          1 <= nit
          /\ solve true
             = SolutionInfo
                 (MkOptimizeResults (apg_x (res true)) nit
                    (residual (apg_x (res true))))))
  /\ ((f_inf >? tol)%sc = false \/ maxiter = 0 ->
      forall acceleration : bool,
        solve acceleration = SolutionInfo (MkOptimizeResults init 0 f_inf)).
Proof.
  assert (Hpg : forall s : pg_state,
             pg_error (body false s) = residual (pg_x s)).
  { intros s. subst body residual. unfold body_fun, _make_pg_body_fun.
    pose proof (body_pg_fields jax_grad fun_ params_fun prox params_prox
                  stepsize maxls (negb implicit_diff) f_half s) as E.
    cbv zeta in E. now rewrite E. }
  assert (Hapg : forall s : apg_state,
             apg_error (body true s) = residual (apg_x (body true s))).
  { intros s. subst body residual. unfold body_fun, _make_pg_body_fun.
    pose proof (body_apg_fields jax_grad fun_ params_fun prox params_prox
                  stepsize maxls (negb implicit_diff) f_half s) as E.
    cbv zeta in E. now rewrite E. }
  split; [exact Hpg|]. split; [exact Hapg|]. split.
  - intros Htol Hm. split; cbv zeta.
    + pose proof (pg_loop_runs false Htol Hm) as Hn. split; [exact Hn|].
      pose proof (pg_loop_last_step false Hn) as E.
      subst solve. unfold _proximal_gradient. fold (res false).
      simpl st_x. simpl st_iter_num. simpl st_error.
      rewrite E at 1 3. now rewrite Hpg.
    + pose proof (pg_loop_runs true Htol Hm) as Hn. split; [exact Hn|].
      pose proof (pg_loop_last_step true Hn) as E.
      subst solve. unfold _proximal_gradient. fold (res true).
      simpl st_x. simpl st_iter_num. simpl st_error.
      do 2 f_equal. rewrite E. apply Hapg.
  - intros H acceleration. subst solve. cbv beta.
    unfold _proximal_gradient. fold (res acceleration).
    rewrite (pg_loop_idle acceleration H). unfold init_args.
    destruct acceleration; reflexivity.
Qed.
End ReportFacts.

(** ** Invariants of the solver state *)

Section InvariantFacts.
Context {S : Scalar}.
Local Open Scope sc_scope.
Hypothesis compare_laws : CompareLaws S.
Hypothesis arith_laws : ArithLaws S.

Lemma zero_is_number : is_number f_zero = true.
Proof.
  exact (proj1 (lt_is_number compare_laws _ _ (one_pos arith_laws))).
Qed.

Lemma iter_shrink_nonneg (k : nat) (c : F) :
  (f_zero <=? c) = true ->
  (f_zero <=? Nat.iter k (fun s => s * f_half) c) = true.
Proof.
  intros Hc. induction k as [|k IH]; simpl; [exact Hc|].
  now apply (shrink_nonneg arith_laws).
Qed.

(** The residual is a square root: nonnegative, or NaN. *)
Lemma error_fun_sign (ParamsProx : Type) (prox : Prox ParamsProx)
    (params_prox : ParamsProx) (x g : Point) :
  (f_zero <=? error_fun prox params_prox x g) = true
  \/ is_number (error_fun prox params_prox x g) = false.
Proof. unfold error_fun, tree_l2_norm. apply (sqrt_sign arith_laws). Qed.

Lemma momentum_ge_one (t : F) :
  (f_one <=? t) = true ->
  (f_one <=? f_half * (f_one + fsqrt (f_one + f_four * (t * t)))) = true.
Proof.
  intros Ht.
  apply (half_one_add arith_laws), (sqrt_ge_one arith_laws),
    (one_add arith_laws), (four_mul arith_laws),
    (square_ge_one arith_laws), Ht.
Qed.

Variables (ParamsFun ParamsProx : Type).
Variable jax_grad : (Point -> ParamsFun -> F) -> Point -> ParamsFun -> Point.
Variable fun_ : Point -> ParamsFun -> F.
Variable init : Point.
Variable params_fun : ParamsFun.
Variable prox : Prox ParamsProx.
Variable params_prox : ParamsProx.
Variable stepsize : F.
Variable maxls : nat.
Variable acceleration : bool.
Variable implicit_diff : bool.

(** One step of [_iter] keeps the trial step size positive, when the
    configured step size is a number. *)
Lemma iter_stepsize_pos (unroll_ls : bool) (x : Point) (fx : F) (g : Point)
    (c : F) :
  is_number stepsize = true ->
  (f_zero <? c) = true ->
  (f_zero <? snd (_iter fun_ params_fun prox params_prox stepsize maxls
                    unroll_ls f_half x fx g c)) = true.
Proof.
  intros stepsize_is_number Hc. unfold _iter. destruct (stepsize <=? f_zero) eqn:Els.
  - unfold pg_linesearch, _make_linesearch.
    pose proof (linesearch_stepsize fun_ params_fun
                  (prox_grad prox params_prox) maxls f_half unroll_ls
                  x fx g c) as E.
    destruct (linesearch _ _ _ _ _ _ _ _ _ _) as [next_x accepted].
    simpl in E |- *.
    assert (Hacc : (f_zero <=? accepted) = true).
    { rewrite E. apply iter_shrink_nonneg. now apply (pos_nonneg arith_laws). }
    destruct (accepted <=? f_floor) eqn:Efl.
    + apply (one_pos arith_laws).
    + now apply (grow_pos arith_laws).
  - simpl. destruct (f_zero <? stepsize) eqn:Epos; [reflexivity|].
    rewrite (not_lt_le compare_laws stepsize f_zero) in Els;
      auto using zero_is_number.
Qed.

Let body : State acceleration -> State acceleration :=
  body_fun jax_grad fun_ params_fun prox params_prox stepsize maxls
    acceleration implicit_diff.

(** C7 (as amended).  Every solver state reachable from the initial state
    by the iteration body has an error that is [>= 0] or NaN and (with
    acceleration) a momentum coefficient [t >= 1], and the iteration count
    increases by exactly one per outer step.  When the configured step size
    is a number (not NaN), every such state has [step_size > 0] as well. *)
Theorem solver_state_invariants (s : State acceleration) :
  reachable jax_grad fun_ init params_fun prox params_prox stepsize maxls
    acceleration implicit_diff s ->
  (is_number stepsize = true ->
   (f_zero <? st_stepsize acceleration s) = true)
  /\ ((f_zero <=? st_error acceleration s) = true
      \/ is_number (st_error acceleration s) = false)
  /\ momentum_ok acceleration s
  /\ st_iter_num acceleration (body s)
     = (st_iter_num acceleration s + 1)%nat.
Proof.
  intros Hr.
  assert (Hinv : (is_number stepsize = true ->
                  (f_zero <? st_stepsize acceleration s) = true)
                 /\ ((f_zero <=? st_error acceleration s) = true
                     \/ is_number (st_error acceleration s) = false)
                 /\ momentum_ok acceleration s).
  { induction Hr as [|s Hr IH].
    - unfold init_args, momentum_ok. destruct acceleration; simpl;
        repeat split; try (intros _); try apply (one_pos arith_laws);
        try apply (one_le_one arith_laws);
        left; apply (inf_nonneg arith_laws).
    - destruct IH as (Hstep & _ & Ht).
      unfold body_fun, _make_pg_body_fun, momentum_ok in *.
      destruct acceleration; simpl in *.
      + pose proof (body_apg_fields jax_grad fun_ params_fun prox params_prox
                      stepsize maxls (negb implicit_diff) f_half s) as E.
        cbv zeta in E. rewrite E. simpl.
        repeat split; auto using iter_stepsize_pos, error_fun_sign,
                        momentum_ge_one.
      + pose proof (body_pg_fields jax_grad fun_ params_fun prox params_prox
                      stepsize maxls (negb implicit_diff) f_half s) as E.
        cbv zeta in E. rewrite E. simpl.
        repeat split; auto using iter_stepsize_pos, error_fun_sign. }
  destruct Hinv as (H1 & H2 & H3). repeat split; trivial.
  apply body_fun_iter_num.
Qed.
End InvariantFacts.

(** ** The laws hold of exact arithmetic *)

Ltac real_cases :=
  unfold Rleb, Rltb, Reqb in *;
  repeat match goal with
    | H : context [Rle_dec ?a ?b] |- _ => destruct (Rle_dec a b)
    | H : context [Rlt_dec ?a ?b] |- _ => destruct (Rlt_dec a b)
    | H : context [Req_dec_T ?a ?b] |- _ => destruct (Req_dec_T a b)
    | |- context [Rle_dec ?a ?b] => destruct (Rle_dec a b)
    | |- context [Rlt_dec ?a ?b] => destruct (Rlt_dec a b)
    | |- context [Req_dec_T ?a ?b] => destruct (Req_dec_T a b)
    end;
  simpl in *; try reflexivity; try discriminate; try lra.

Lemma exact_compare_laws : CompareLaws exact.
Proof.
  split; unfold is_number; simpl.
  - intros [|[]|r] [|[]|r']; simpl; intros H; try discriminate;
      split; real_cases.
  - intros [|[]|r] [|[]|r']; simpl; intros H; try discriminate; real_cases.
  - intros [|[]|r] [|[]|r']; simpl; intros Ha Hb H; try discriminate;
      real_cases.
Qed.

Lemma exact_arith_laws : ArithLaws exact.
Proof.
  split; unfold is_number; simpl.
  - real_cases.
  - intros [|[]|r]; simpl; intros H; try discriminate; real_cases.
  - intros [|[]|r]; simpl; intros H; try discriminate; real_cases.
  - intros [|[]|r]; simpl; intros H H'; try discriminate; real_cases.
  - intros [|[]|r]; simpl; auto.
    pose proof (sqrt_pos r). real_cases; auto; exfalso; lra.
  - reflexivity.
  - real_cases.
  - intros [|[]|r]; simpl; intros H; try discriminate; real_cases. nra.
  - intros [|[]|r]; simpl; intros H; try discriminate; real_cases.
  - intros [|[]|r]; simpl; intros H; try discriminate; real_cases.
  - intros [|[]|r]; simpl; intros H; try discriminate; try reflexivity.
    pose proof (sqrt_le_1_alt 1 r) as Hs. rewrite sqrt_1 in Hs. real_cases.
  - intros [|[]|r]; simpl; intros H; try discriminate; real_cases.
Qed.

(** ** Runs of the line search on binary64 *)

(** C1 on the quadratic [0.5 * (x - 3)^2] from [x = 0] ([f_x = 4.5],
    [grad_x = -3]) with trial step size [4]: two shrink attempts, then the
    candidate [x = 3] at step size [1] satisfies the inequality. *)
Lemma linesearch_acceptance_witness :
  CompareLaws binary64
  /\ let r := @linesearch binary64 unit quadratic tt prox_grad_none 15
                0.5%float false [0%float] 4.5%float [(-3)%float] 4%float in
     let attempts := @ls_attempts binary64 unit quadratic tt prox_grad_none 15
                       0.5%float [0%float] 4.5%float [(-3)%float] 4%float in
     let lhs := @fun_decrease binary64 unit quadratic tt 4.5%float
                  (fst r) (snd r) in
     let rhs := (@condition binary64 [0%float] [(-3)%float] (fst r) (snd r)
                 + 0x1p-52)%float in
     attempts <= 15
     /\ r = Nat.iter attempts
              (@ls_body_fun binary64 prox_grad_none 0.5%float
                 [0%float] [(-3)%float])
              (prox_grad_none [0%float] [(-3)%float] 4%float, 4%float)
     /\ ((lhs <=? rhs)%float = true
         \/ @is_number binary64 lhs = false
         \/ @is_number binary64 rhs = false
         \/ attempts = 15).
Proof.
  split; [exact binary64_compare_laws|].
  exact (@linesearch_acceptance binary64 unit quadratic tt prox_grad_none 15
           0.5%float false [0%float] 4.5%float [(-3)%float] 4%float
           binary64_compare_laws).
Defined.

(** C1 as stated fails.  With [f = sqrt], from [x = 1] ([f_x = 1],
    [grad_x = 0.5]) and trial step size [4], the first candidate is
    [x_next = -1], where [f] is NaN: the rejection test is false, so the
    pair [(-1, 4)] is returned after no shrink attempt of the [maxls = 15]
    allowed, and the sufficient-decrease inequality does not hold of it. *)
Lemma linesearch_acceptance_counterexample :
  let r := @linesearch binary64 unit sqrt_sum tt prox_grad_none 15
             0.5%float false [1%float] 1%float [0.5%float] 4%float in
  let attempts := @ls_attempts binary64 unit sqrt_sum tt prox_grad_none 15
                    0.5%float [1%float] 1%float [0.5%float] 4%float in
  let next_x := fst r in
  let stepsize := snd r in
  let diff_x := @tree_sub binary64 next_x [1%float] in
  let lhs := (stepsize * (sqrt_sum next_x tt - 1))%float in
  let rhs := (stepsize * @tree_vdot binary64 diff_x [0.5%float]
              + 0.5 * @tree_l2_norm binary64 diff_x true + 0x1p-52)%float in
  r = ([(-1)%float], 4%float)
  /\ attempts = 0
  /\ (lhs <=? rhs)%float = false
  /\ ~ ((lhs <=? rhs)%float = true \/ attempts = 15).
Proof.
  cbv zeta. repeat split; try (vm_compute; reflexivity).
  intros [H|H]; vm_compute in H; discriminate.
Qed.

(** ** Runs of the solver on binary64 *)

(** The spec's scenarios, with [tol = 1e-6]: without regulariser the
    solver ends within [2^-20] of [x = 3], with the regulariser [|x|] and
    threshold [1.0] within [2^-20] of [x = 2], whether it steps at the fixed
    size [0.5] or searches, with or without acceleration. *)
Example scenario_quadratic :
  forallb (fun x => (abs (x - 3) <=? 0x1p-20)%float)
    (pg_x (quadratic_loop [0%float] 0.5%float 0x1.0c6f7a0b5ed8dp-20%float false)
     ++ apg_x (quadratic_loop [0%float] 0.5%float 0x1.0c6f7a0b5ed8dp-20%float true)
     ++ pg_x (quadratic_loop [0%float] 0%float 0x1.0c6f7a0b5ed8dp-20%float false)
     ++ apg_x (quadratic_loop [0%float] 0%float 0x1.0c6f7a0b5ed8dp-20%float true))
  = true.
Proof. vm_compute. reflexivity. Qed.

Example scenario_lasso :
  forallb (fun x => (abs (x - 2) <=? 0x1p-20)%float)
    (pg_x (lasso_loop [0%float] 0.5%float 0x1.0c6f7a0b5ed8dp-20%float false)
     ++ apg_x (lasso_loop [0%float] 0.5%float 0x1.0c6f7a0b5ed8dp-20%float true)
     ++ pg_x (lasso_loop [0%float] 0%float 0x1.0c6f7a0b5ed8dp-20%float false)
     ++ apg_x (lasso_loop [0%float] 0%float 0x1.0c6f7a0b5ed8dp-20%float true))
  = true.
Proof. vm_compute. reflexivity. Qed.

(** The iteration counts of the first scenario: 23 outer steps at the fixed
    step size, 2 with the line search. *)
Example scenario_quadratic_iterations :
  pg_iter_num
    (quadratic_loop [0%float] 0.5%float 0x1.0c6f7a0b5ed8dp-20%float false) = 23
  /\ pg_iter_num
       (quadratic_loop [0%float] 0%float 0x1.0c6f7a0b5ed8dp-20%float false) = 2.
Proof. split; vm_compute; reflexivity. Qed.

(** C2 on the spec's scenario: [0.5 * (x - 3)^2] from [x = 0] with the fixed
    step size [0.5], no acceleration and [tol = 1e-6]. *)
Lemma outer_loop_exit_witness :
  CompareLaws binary64
  /\ (0 <? 0x1.0c6f7a0b5ed8dp-20)%float = true
  /\ let res := quadratic_loop [0%float] 0.5%float 0x1.0c6f7a0b5ed8dp-20%float
                  false in
     let nit := pg_iter_num res in
     let error := pg_error res in
     nit <= 500
     /\ res = Nat.iter nit
                (@body_fun binary64 unit unit quadratic_grad quadratic tt
                   prox_none tt 0.5%float 15 false true)
                (@init_args binary64 [0%float] false)
     /\ ((error <=? 0x1.0c6f7a0b5ed8dp-20)%float = true
         \/ @is_number binary64 error = false
         \/ nit = 500)
     /\ @_proximal_gradient binary64 unit unit quadratic_grad quadratic
          [0%float] tt prox_none tt 0.5%float 500 15
          0x1.0c6f7a0b5ed8dp-20%float false false true true
        = SolutionInfo (MkOptimizeResults (pg_x res) nit error).
Proof.
  split; [exact binary64_compare_laws|]. split; [reflexivity|].
  exact (@outer_loop_exit binary64 unit unit quadratic_grad quadratic
           [0%float] tt prox_none tt 0.5%float 500 15
           0x1.0c6f7a0b5ed8dp-20%float false false true true
           binary64_compare_laws eq_refl).
Defined.

(** C2 as stated fails.  Minimising [sqrt(x)] from [x = 0.25] with the fixed
    step size [1] and [tol = 2^-10]: the first step reaches [x = -0.75],
    outside the domain of [sqrt], the second computes a NaN gradient, point
    and error; [NaN > tol] is false and the loop exits with iteration count
    [2], not [maxiter = 500], and an error that is not [<= tol]. *)
Lemma outer_loop_exit_counterexample :
  let res := sqrt_sum_loop [0.25%float] 1%float 0x1p-10%float false in
  (0 <? 0x1p-10)%float = true
  /\ res = @PGState binary64 2 [nan] 1%float nan
  /\ (pg_error res <=? 0x1p-10)%float = false
  /\ ~ ((pg_error res <=? 0x1p-10)%float = true \/ pg_iter_num res = 500).
Proof.
  cbv zeta. repeat split; try (vm_compute; reflexivity).
  intros [H|H]; vm_compute in H; discriminate.
Qed.

(** C10 on the quadratic started at its minimiser [x = 3], an exact fixed
    point of the proximal-gradient map: one iteration is executed. *)
Lemma first_iteration_runs_witness :
  (0x1.0c6f7a0b5ed8dp-20 <? infinity)%float = true
  /\ 1 <= 500
  /\ 1 <= pg_iter_num
            (quadratic_loop [3%float] 0.5%float 0x1.0c6f7a0b5ed8dp-20%float
               false).
Proof.
  split; [reflexivity|]. split; [lia|].
  apply (@first_iteration_runs binary64 unit unit quadratic_grad quadratic
           [3%float] tt prox_none tt 0.5%float 500 15
           0x1.0c6f7a0b5ed8dp-20%float false false true eq_refl).
  lia.
Defined.

(** C5 on the quadratic with [stepsize = 0]: the first iteration from
    [x = 0] runs the line search from the trial step size [1]. *)
Lemma linesearch_step_adaptation_witness :
  (0 <=? 0)%float = true
  /\ let s := @init_args binary64 [0%float] false in
     let r := @linesearch binary64 unit quadratic tt prox_grad_none 15
                0.5%float false (pg_x s) (quadratic (pg_x s) tt)
                (quadratic_grad quadratic (pg_x s) tt) (pg_stepsize s) in
     let s' := @body_fun_proximal_gradient binary64 unit unit quadratic_grad
                 quadratic tt prox_none tt 0%float 15 false 0.5%float s in
     pg_x s' = fst r
     /\ pg_stepsize s'
        = (if (snd r <=? 0x1.0c6f7a0b5ed8dp-20)%float then 1%float
           else (snd r / 0.5)%float).
Proof.
  split; [reflexivity|].
  exact (proj1 (@linesearch_step_adaptation binary64 unit unit quadratic_grad
                  quadratic tt prox_none tt 0%float 15 false 0.5%float
                  eq_refl)
           (@init_args binary64 [0%float] false)).
Defined.

(** C6 on the spec's scenario, [stepsize = 0.5]: the first iteration from
    [x = 0] steps to [prox(0 - 0.5 * (-3)) = 1.5]. *)
Lemma fixed_step_iteration_witness :
  CompareLaws binary64
  /\ (0 <? 0.5)%float = true
  /\ let s := @init_args binary64 [0%float] false in
     let s' := @body_fun_proximal_gradient binary64 unit unit quadratic_grad
                 quadratic tt prox_none tt 0.5%float 15 false 0.5%float s in
     pg_x s'
     = prox_none
         (@tree_add_scalar_mul binary64 (pg_x s) (- 0.5)%float
            (quadratic_grad quadratic (pg_x s) tt)) tt 0.5%float
     /\ pg_stepsize s' = 0.5%float.
Proof.
  split; [exact binary64_compare_laws|]. split; [reflexivity|].
  exact (proj1 (@fixed_step_iteration binary64 unit unit quadratic_grad
                  quadratic tt prox_none tt 0.5%float 15 false 0.5%float
                  binary64_compare_laws eq_refl)
           (@init_args binary64 [0%float] false)).
Defined.

(** C7 as stated fails.  Minimising [sqrt(x)] from [x = 0.25] with the fixed
    step size [1], the state after two iterations is reachable and its error
    is NaN, which is not [>= 0].  And when the configured step size is itself NaN, the test
    [stepsize <= 0] is false, the fixed-step branch is taken and the state
    after one iteration carries the step size NaN, which is not [> 0]. *)
Lemma solver_state_invariants_counterexample :
  let body := @body_fun binary64 unit unit sqrt_sum_grad sqrt_sum tt
                prox_none tt 1%float 15 false true in
  let s := body (body (@init_args binary64 [0.25%float] false)) in
  let body_nan := @body_fun binary64 unit unit sqrt_sum_grad sqrt_sum tt
                    prox_none tt nan 15 false true in
  let s_nan := body_nan (@init_args binary64 [0.25%float] false) in
  (@reachable binary64 unit unit sqrt_sum_grad sqrt_sum [0.25%float] tt
     prox_none tt 1%float 15 false true s
   /\ s = @PGState binary64 2 [nan] 1%float nan
   /\ (0 <=? pg_error s)%float = false)
  /\ (@reachable binary64 unit unit sqrt_sum_grad sqrt_sum [0.25%float] tt
        prox_none tt nan 15 false true s_nan
      /\ s_nan = @PGState binary64 1 [nan] nan 1%float
      /\ (0 <? pg_stepsize s_nan)%float = false).
Proof.
  cbv zeta. split.
  - split; [do 2 apply reachable_step; apply reachable_init|].
    split; vm_compute; reflexivity.
  - split; [apply reachable_step, reachable_init|].
    split; vm_compute; reflexivity.
Qed.

(** The reported point is one step ahead of the point its reported error
    belongs to: with [tol = 0.5] the spec's first scenario stops at
    [x = 2.8125] and reports the error [0.375], the residual of the previous
    iterate [2.625], whereas the residual of [2.8125] is [0.1875]. *)
Lemma reported_error_lags_example :
  let res := quadratic_loop [0%float] 0.5%float 0.5%float false in
  res = @PGState binary64 4 [2.8125%float] 0.5%float 0.375%float
  /\ @error_fun binary64 unit prox_none tt [2.625%float]
       (quadratic_grad quadratic [2.625%float] tt) = 0.375%float
  /\ @error_fun binary64 unit prox_none tt (pg_x res)
       (quadratic_grad quadratic (pg_x res) tt) = 0.1875%float.
Proof. cbv zeta. repeat split; vm_compute; reflexivity. Qed.

(** C9 on the spec's first scenario with [tol = 0.5], which is below
    [+inf], and [maxiter = 500]: at least one iteration runs, and the
    reported error is the residual of the previous iterate without
    acceleration and of the reported point with it. *)
Lemma reported_error_lags_witness :
  (0.5 <? infinity)%float = true
  /\ 1 <= 500
  /\ (let body := @body_fun binary64 unit unit quadratic_grad quadratic tt
                    prox_none tt 0.5%float 15 false true in
      let nit := pg_iter_num (quadratic_loop [0%float] 0.5%float 0.5%float
                                false) in
      let prev := Nat.iter (nit - 1) body (@init_args binary64 [0%float] false)
      in
      1 <= nit
      /\ @_proximal_gradient binary64 unit unit quadratic_grad quadratic
           [0%float] tt prox_none tt 0.5%float 500 15 0.5%float false false
           true true
         = SolutionInfo
             (MkOptimizeResults (pg_x (body prev)) nit
                (@error_fun binary64 unit prox_none tt (pg_x prev)
                   (quadratic_grad quadratic (pg_x prev) tt))))
  /\ (let res := quadratic_loop [0%float] 0.5%float 0.5%float true in
      let nit := apg_iter_num res in
      1 <= nit
      /\ @_proximal_gradient binary64 unit unit quadratic_grad quadratic
           [0%float] tt prox_none tt 0.5%float 500 15 0.5%float true false
           true true
         = SolutionInfo
             (MkOptimizeResults (apg_x res) nit
                (@error_fun binary64 unit prox_none tt (apg_x res)
                   (quadratic_grad quadratic (apg_x res) tt)))).
Proof.
  split; [reflexivity|]. split; [lia|].
  apply (proj1 (proj2 (proj2
           (@reported_error_lags binary64 unit unit quadratic_grad quadratic
              [0%float] tt prox_none tt 0.5%float 500 15 0.5%float false
              true)))); [reflexivity|lia].
Defined.

(** C9 as stated fails when the loop exits without an iteration.  On the
    spec's first scenario with [maxiter = 0] the accelerated solver reports
    the initial point [0] with the initial error [+inf], whereas the
    residual of [0] is [3]: the reported error does not describe the
    reported point.  Without acceleration the report is the same, and no
    iterate precedes the reported point.  A tolerance [+inf] has the same
    effect whatever [maxiter]. *)
Lemma reported_error_lags_counterexample :
  let solve (maxiter : nat) (tol : float) (acceleration : bool) :=
    @_proximal_gradient binary64 unit unit quadratic_grad quadratic
      [0%float] tt prox_none tt 0.5%float maxiter 15 tol acceleration false
      true true in
  let residual (x : list float) : float :=
    @error_fun binary64 unit prox_none tt x (quadratic_grad quadratic x tt) in
  solve 0 0x1.0c6f7a0b5ed8dp-20%float true
  = SolutionInfo (@MkOptimizeResults binary64 [0%float] 0 infinity)
  /\ solve 0 0x1.0c6f7a0b5ed8dp-20%float false
     = SolutionInfo (@MkOptimizeResults binary64 [0%float] 0 infinity)
  /\ solve 500 infinity true
     = SolutionInfo (@MkOptimizeResults binary64 [0%float] 0 infinity)
  /\ residual [0%float] = 3%float
  /\ (residual [0%float] =? infinity)%float = false.
Proof. cbv zeta. repeat split; vm_compute; reflexivity. Qed.

(** ** Runs in exact arithmetic *)

Lemma exact_sub_square_sym (a b : xreal) :
  xmul (xsub a b) (xsub a b) = xmul (xsub b a) (xsub b a).
Proof.
  destruct a as [|[]|r], b as [|[]|r']; simpl; try reflexivity.
  f_equal. ring.
Qed.

(** C3 in exact arithmetic, where squares of differences are symmetric: the
    error at [x = 1] with gradient [1] is the norm of [x - prox(x - 1 * 1)]. *)
Lemma error_is_fixed_point_residual_witness :
  (forall a b : xreal, xmul (xsub a b) (xsub a b) = xmul (xsub b a) (xsub b a))
  /\ let x := [XFin 1] in
     let g := [XFin 1] in
     let image :=
       xprox_none (@tree_add_scalar_mul exact x (xopp (XFin 1)) g) tt
         (XFin 1) in
     @error_fun exact unit xprox_none tt x g
     = @tree_l2_norm exact (@tree_sub exact x image) false.
Proof.
  split; [exact exact_sub_square_sym|].
  exact (proj2 (proj1 (@error_is_fixed_point_residual exact unit unit
                         zero_objective_grad zero_objective tt xprox_none tt
                         (XFin 0) 15 false (XFin (1 / 2)))
                  [XFin 1] [XFin 1])
           exact_sub_square_sym).
Defined.

(** C7 on binary64: the state after two accelerated iterations with line
    search ([stepsize = 0]) on the quadratic [0.5 * (x - 3)^2] from
    [x = 0]. *)
Lemma solver_state_invariants_witness :
  CompareLaws binary64
  /\ ArithLaws binary64
  /\ @is_number binary64 0%float = true
  /\ let body := @body_fun binary64 unit unit quadratic_grad quadratic tt
                   prox_none tt 0%float 15 true true in
     let s := body (body (@init_args binary64 [0%float] true)) in
     @reachable binary64 unit unit quadratic_grad quadratic [0%float] tt
       prox_none tt 0%float 15 true true s
     /\ (0 <? apg_stepsize s)%float = true
     /\ ((0 <=? apg_error s)%float = true
         \/ @is_number binary64 (apg_error s) = false)
     /\ (1 <=? apg_t s)%float = true
     /\ apg_iter_num (body s) = apg_iter_num s + 1.
Proof.
  split; [exact binary64_compare_laws|]. split; [exact binary64_arith_laws|].
  split; [reflexivity|]. cbv zeta.
  split; [do 2 apply reachable_step; apply reachable_init|].
  destruct (@solver_state_invariants binary64 binary64_compare_laws
              binary64_arith_laws unit unit quadratic_grad quadratic
              [0%float] tt prox_none tt 0%float 15 true true _
              (reachable_step (reachable_step
                 (reachable_init _ _ _ _ _ _ _ _ _ _))))
    as (Hstep & Herr & Ht & Hcount).
  split; [exact (Hstep eq_refl)|]. split; [exact Herr|].
  split; [exact Ht|exact Hcount].
Defined.

(** The state of that run: the minimiser [3] with error [0], the trial
    step size grown twice to [4], and the momentum coefficient above [2]. *)
Example solver_state_invariants_run :
  let body := @body_fun binary64 unit unit quadratic_grad quadratic tt
                prox_none tt 0%float 15 true true in
  let s := body (body (@init_args binary64 [0%float] true)) in
  apg_iter_num s = 2
  /\ apg_x s = [3%float]
  /\ apg_stepsize s = 4%float
  /\ apg_error s = 0%float
  /\ (2 <=? apg_t s)%float = true.
Proof. cbv zeta. repeat split; vm_compute; reflexivity. Qed.

(** * Further properties *)

(** ** More on the bounded loop *)

Section MoreLoopFacts.
Variable T : Type.

(** Every state before the last one passed the predicate. *)
Lemma while_loop_steps_cond (cond_fun : T -> bool) (body_fun : T -> T)
    (n : nat) (val : T) (j : nat) :
  j < while_loop_steps cond_fun body_fun val n ->
  cond_fun (Nat.iter j body_fun val) = true.
Proof.
  revert val j. induction n as [|n IH]; intros val j; simpl; [lia|].
  destruct (cond_fun val) eqn:E; [|lia]. intros Hj.
  destruct j as [|j]; [exact E|].
  rewrite Nat.iter_succ_r. apply IH. lia.
Qed.

Lemma while_loop_eager_stop (cond_fun : T -> bool) (body_fun : T -> T)
    (n : nat) (val : T) :
  cond_fun val = false -> while_loop_eager cond_fun body_fun val n = val.
Proof. intros H. destruct n; simpl; [reflexivity|now rewrite H]. Qed.

(** A loop that stopped before its cap stops at the same state under any
    larger cap. *)
Lemma while_loop_eager_stable (cond_fun : T -> bool) (body_fun : T -> T)
    (n : nat) (val : T) (m : nat) :
  while_loop_steps cond_fun body_fun val n < n -> n <= m ->
  while_loop_eager cond_fun body_fun val m
  = while_loop_eager cond_fun body_fun val n.
Proof.
  revert val m. induction n as [|n IH]; intros val m; simpl; [lia|].
  destruct (cond_fun val) eqn:E; intros Hk Hm.
  - destruct m as [|m]; [lia|]. simpl. rewrite E. apply IH; lia.
  - now apply while_loop_eager_stop.
Qed.

(** Loops with pointwise equal predicates and bodies compute the same. *)
Lemma while_loop_eager_ext (cond1 cond2 : T -> bool) (body1 body2 : T -> T)
    (n : nat) (val : T) :
  (forall s, cond1 s = cond2 s) -> (forall s, body1 s = body2 s) ->
  while_loop_eager cond1 body1 val n = while_loop_eager cond2 body2 val n.
Proof.
  intros Hc Hb. revert val. induction n as [|n IH]; intros val; simpl;
    [reflexivity|].
  rewrite Hc, Hb, IH. reflexivity.
Qed.
End MoreLoopFacts.

(** ** The candidates of the line search *)

Section CandidateFacts.
Context {S : Scalar}.
Local Open Scope sc_scope.
Variables (ParamsFun : Type).
Variable fun_ : Point -> ParamsFun -> F.
Variable params_fun : ParamsFun.
Variable prox_grad : Point -> Point -> F -> Point.
Variable maxls : nat.
Variable stepfactor : F.
Variable unroll : bool.
Variables (curr_x : Point) (curr_x_fun_val : F) (curr_x_fun_grad : Point).
Variable curr_stepsize : F.

(** The trial step size after [j] shrink attempts and its candidate. *)
Let shrunk (j : nat) : F := Nat.iter j (fun s => s * stepfactor) curr_stepsize.
Let candidate (j : nat) : Point * F :=
  (prox_grad curr_x curr_x_fun_grad (shrunk j), shrunk j).

Lemma ls_body_fun_iter (j : nat) :
  Nat.iter j (ls_body_fun prox_grad stepfactor curr_x curr_x_fun_grad)
    (prox_grad curr_x curr_x_fun_grad curr_stepsize, curr_stepsize)
  = candidate j.
Proof.
  induction j as [|j IH]; [reflexivity|].
  simpl Nat.iter at 1. rewrite IH. reflexivity.
Qed.

(** The line search returns the first candidate of the geometric sequence
    [curr_stepsize * stepfactor^j], [j = 0, 1, ..., maxls], that the
    rejection test does not reject, or the last one: the returned step size
    is the trial one shrunk [ls_attempts <= maxls] times, the returned point
    is the prox-gradient step at exactly that step size, and every earlier
    candidate was rejected by the test. *)
Theorem linesearch_first_accepted :
  let r := linesearch fun_ params_fun prox_grad maxls stepfactor unroll
             curr_x curr_x_fun_val curr_x_fun_grad curr_stepsize in
  let k := ls_attempts fun_ params_fun prox_grad maxls stepfactor
             curr_x curr_x_fun_val curr_x_fun_grad curr_stepsize in
  k <= maxls
  /\ snd r = Nat.iter k (fun s => s * stepfactor) curr_stepsize
  /\ fst r = prox_grad curr_x curr_x_fun_grad (snd r)
  /\ (forall j, j < k ->
      let s := Nat.iter j (fun s => s * stepfactor) curr_stepsize in
      ls_cond_fun fun_ params_fun curr_x curr_x_fun_val curr_x_fun_grad
        (prox_grad curr_x curr_x_fun_grad s, s) = true)
  /\ (k = maxls
      \/ ls_cond_fun fun_ params_fun curr_x curr_x_fun_val curr_x_fun_grad r
         = false).
Proof.
  cbv zeta. split; [apply while_loop_steps_le|].
  split; [|split; [|split]].
  - rewrite linesearch_iter, ls_body_fun_iter. reflexivity.
  - rewrite linesearch_iter, ls_body_fun_iter. reflexivity.
  - intros j Hj. apply while_loop_steps_cond in Hj.
    now rewrite ls_body_fun_iter in Hj.
  - unfold linesearch, ls_attempts. rewrite while_loop_eq_eager.
    apply while_loop_exit.
Qed.
End CandidateFacts.

(** ** Configuration that a run does not read *)

Section InertFacts.
Context {S : Scalar}.
Local Open Scope sc_scope.
Variables (ParamsFun ParamsProx : Type).
Variable jax_grad : (Point -> ParamsFun -> F) -> Point -> ParamsFun -> Point.
Variable fun_ : Point -> ParamsFun -> F.
Variable params_fun : ParamsFun.
Variable prox : Prox ParamsProx.
Variable params_prox : ParamsProx.

Lemma _iter_fixed (stepsize : F) (maxls : nat) (unroll_ls : bool)
    (stepfactor : F) (x : Point) (fx : F) (g : Point) (c : F) :
  (stepsize <=? f_zero) = false ->
  _iter fun_ params_fun prox params_prox stepsize maxls unroll_ls stepfactor
    x fx g c
  = (prox (tree_add_scalar_mul x (- stepsize) g) params_prox stepsize,
     stepsize).
Proof. intros H. unfold _iter. now rewrite H. Qed.

Lemma _iter_linesearch (stepsize : F) (maxls : nat) (unroll_ls : bool)
    (stepfactor : F) (x : Point) (fx : F) (g : Point) (c : F) :
  (stepsize <=? f_zero) = true ->
  _iter fun_ params_fun prox params_prox stepsize maxls unroll_ls stepfactor
    x fx g c
  = let r := while_loop_eager
               (ls_cond_fun fun_ params_fun x fx g)
               (ls_body_fun (_make_prox_grad prox params_prox) stepfactor x g)
               (_make_prox_grad prox params_prox x g c, c) maxls in
    (fst r, if snd r <=? f_floor then f_one else snd r / stepfactor).
Proof.
  intros H. unfold _iter. rewrite H.
  unfold pg_linesearch, _make_linesearch, linesearch, prox_grad.
  rewrite while_loop_eq_eager. cbv zeta.
  destruct (while_loop_eager _ _ _ _); reflexivity.
Qed.

(** Bodies whose [_iter] agree agree. *)
Lemma body_fun_iter_ext (acceleration : bool) (stepsize1 stepsize2 : F)
    (maxls1 maxls2 : nat) (implicit_diff1 implicit_diff2 : bool) :
  (forall x fx g c,
      _iter fun_ params_fun prox params_prox stepsize1 maxls1
        (negb implicit_diff1) f_half x fx g c
      = _iter fun_ params_fun prox params_prox stepsize2 maxls2
          (negb implicit_diff2) f_half x fx g c) ->
  forall s : State acceleration,
    body_fun jax_grad fun_ params_fun prox params_prox stepsize1 maxls1
      acceleration implicit_diff1 s
    = body_fun jax_grad fun_ params_fun prox params_prox stepsize2 maxls2
        acceleration implicit_diff2 s.
Proof.
  intros H s. unfold body_fun, _make_pg_body_fun.
  destruct acceleration.
  - pose proof (body_apg_fields jax_grad fun_ params_fun prox params_prox
                  stepsize1 maxls1 (negb implicit_diff1) f_half s) as E1.
    pose proof (body_apg_fields jax_grad fun_ params_fun prox params_prox
                  stepsize2 maxls2 (negb implicit_diff2) f_half s) as E2.
    cbv zeta in E1, E2. rewrite E1, E2, H. reflexivity.
  - pose proof (body_pg_fields jax_grad fun_ params_fun prox params_prox
                  stepsize1 maxls1 (negb implicit_diff1) f_half s) as E1.
    pose proof (body_pg_fields jax_grad fun_ params_fun prox params_prox
                  stepsize2 maxls2 (negb implicit_diff2) f_half s) as E2.
    cbv zeta in E1, E2. rewrite E1, E2, H. reflexivity.
Qed.

Variable init : Point.
Variable maxiter : nat.
Variable tol : F.
Variable acceleration : bool.

Lemma pg_loop_iter_ext (stepsize1 stepsize2 : F) (maxls1 maxls2 : nat)
    (verbose1 verbose2 implicit_diff1 implicit_diff2 : bool) :
  (forall x fx g c,
      _iter fun_ params_fun prox params_prox stepsize1 maxls1
        (negb implicit_diff1) f_half x fx g c
      = _iter fun_ params_fun prox params_prox stepsize2 maxls2
          (negb implicit_diff2) f_half x fx g c) ->
  pg_loop jax_grad fun_ init params_fun prox params_prox stepsize1 maxiter
    maxls1 tol acceleration verbose1 implicit_diff1
  = pg_loop jax_grad fun_ init params_fun prox params_prox stepsize2 maxiter
      maxls2 tol acceleration verbose2 implicit_diff2.
Proof.
  intros H. rewrite !pg_loop_eager.
  apply while_loop_eager_ext; [reflexivity|].
  now apply body_fun_iter_ext.
Qed.

(** A step size [<= 0] only selects the line search: its value is never
    used, so any two such configurations return the same result. *)
Theorem nonpositive_stepsize_value_inert (stepsize1 stepsize2 : F)
    (maxls : nat) (verbose implicit_diff ret_info : bool) :
  (stepsize1 <=? f_zero) = true ->
  (stepsize2 <=? f_zero) = true ->
  _proximal_gradient jax_grad fun_ init params_fun prox params_prox stepsize1
    maxiter maxls tol acceleration verbose implicit_diff ret_info
  = _proximal_gradient jax_grad fun_ init params_fun prox params_prox
      stepsize2 maxiter maxls tol acceleration verbose implicit_diff
      ret_info.
Proof.
  intros H1 H2. unfold _proximal_gradient.
  rewrite (pg_loop_iter_ext stepsize1 stepsize2 maxls maxls verbose verbose
             implicit_diff implicit_diff); [reflexivity|].
  intros x fx g c. now rewrite !_iter_linesearch.
Qed.

(** With a fixed step size (the test [stepsize <= 0] fails) the line search
    is never entered, so [maxls] has no influence on the result. *)
Theorem fixed_step_maxls_inert (stepsize : F) (maxls1 maxls2 : nat)
    (verbose implicit_diff ret_info : bool) :
  (stepsize <=? f_zero) = false ->
  _proximal_gradient jax_grad fun_ init params_fun prox params_prox stepsize
    maxiter maxls1 tol acceleration verbose implicit_diff ret_info
  = _proximal_gradient jax_grad fun_ init params_fun prox params_prox
      stepsize maxiter maxls2 tol acceleration verbose implicit_diff
      ret_info.
Proof.
  intros H. unfold _proximal_gradient.
  rewrite (pg_loop_iter_ext stepsize stepsize maxls1 maxls2 verbose verbose
             implicit_diff implicit_diff); [reflexivity|].
  intros x fx g c. now rewrite !_iter_fixed.
Qed.
End InertFacts.

(** ** Trajectories *)

Section TrajectoryFacts.
Context {S : Scalar}.
Local Open Scope sc_scope.
Variables (ParamsFun ParamsProx : Type).
Variable jax_grad : (Point -> ParamsFun -> F) -> Point -> ParamsFun -> Point.
Variable fun_ : Point -> ParamsFun -> F.
Variable init : Point.
Variable params_fun : ParamsFun.
Variable prox : Prox ParamsProx.
Variable params_prox : ParamsProx.
Variable stepsize : F.
Variable maxiter : nat.
Variable maxls : nat.
Variable tol : F.
Variable verbose : bool.
Variable implicit_diff : bool.

Lemma iter_ext (A : Type) (f g : A -> A) (k : nat) (a : A) :
  (forall x, f x = g x) -> Nat.iter k f a = Nat.iter k g a.
Proof.
  intros H. induction k as [|k IH]; simpl; [reflexivity|].
  now rewrite IH, H.
Qed.

(** With a fixed positive step size and no acceleration the points of the
    solver are the iterates of the proximal-gradient map
    [x |-> prox(x - stepsize * grad f(x), params_prox, stepsize)] started at
    [init]: after [k] iterations the state holds the [k]-th iterate, the
    count [k] and (from the first iteration on) the configured step size,
    and the point the solver returns is the iterate numbered by the reported
    iteration count.  When the prox is the identity at every scale these are
    the iterates of gradient descent, [x |-> x - stepsize * grad f(x)]. *)
Theorem fixed_step_trajectory :
  CompareLaws S ->
  (f_zero <? stepsize) = true ->
  let body := body_fun jax_grad fun_ params_fun prox params_prox stepsize
                maxls false implicit_diff in
  let step (x : Point) : Point :=
    prox (tree_add_scalar_mul x (- stepsize) (jax_grad fun_ x params_fun))
      params_prox stepsize in
  let descent (x : Point) : Point :=
    tree_add_scalar_mul x (- stepsize) (jax_grad fun_ x params_fun) in
  let res : pg_state :=
    pg_loop jax_grad fun_ init params_fun prox params_prox stepsize maxiter
      maxls tol false verbose implicit_diff in
  (forall k,
      let s : pg_state := Nat.iter k body (init_args init false) in
      pg_x s = Nat.iter k step init
      /\ pg_iter_num s = k
      /\ (1 <= k -> pg_stepsize s = stepsize))
  /\ pg_x res = Nat.iter (pg_iter_num res) step init
  /\ ((forall v scaling, prox v params_prox scaling = v) ->
      pg_x res = Nat.iter (pg_iter_num res) descent init).
Proof.
  intros L Hpos. apply (lt_not_le L) in Hpos. cbv zeta.
  assert (Hk : forall k,
             pg_x (Nat.iter k
                     (body_fun jax_grad fun_ params_fun prox params_prox
                        stepsize maxls false implicit_diff)
                     (init_args init false))
             = Nat.iter k
                 (fun x => prox (tree_add_scalar_mul x (- stepsize)
                                   (jax_grad fun_ x params_fun))
                             params_prox stepsize) init
             /\ pg_iter_num (Nat.iter k
                     (body_fun jax_grad fun_ params_fun prox params_prox
                        stepsize maxls false implicit_diff)
                     (init_args init false)) = k
             /\ (1 <= k ->
                 pg_stepsize (Nat.iter k
                     (body_fun jax_grad fun_ params_fun prox params_prox
                        stepsize maxls false implicit_diff)
                     (init_args init false)) = stepsize)).
  { induction k as [|k (IHx & IHn & _)].
    - simpl. repeat split. lia.
    - rewrite !Nat.iter_succ.
      remember (Nat.iter k
                  (body_fun jax_grad fun_ params_fun prox params_prox
                     stepsize maxls false implicit_diff)
                  (init_args init false)) as prev eqn:Eprev in *.
      unfold body_fun, _make_pg_body_fun.
      pose proof (body_pg_fields jax_grad fun_ params_fun prox params_prox
                    stepsize maxls (negb implicit_diff) f_half prev) as E.
      cbv zeta in E. rewrite E, _iter_fixed by exact Hpos. simpl.
      rewrite IHx, IHn. repeat split. lia. }
  split; [exact Hk|].
  pose proof (pg_loop_iter jax_grad fun_ init params_fun prox params_prox
                stepsize maxiter maxls tol false verbose implicit_diff) as E.
  simpl st_iter_num in E.
  split.
  - rewrite E at 1. apply Hk.
  - intros Hid. rewrite E at 1.
    rewrite (proj1 (Hk _)). apply iter_ext. intros x. apply Hid.
Qed.

(** Acceleration does not change the first iterate: the first accelerated
    iteration and the first plain iteration take the same step from [init]
    (the extrapolated point starts at [init] too) and leave the same point
    and the same next trial step size. *)
Theorem first_iterate_without_momentum :
  let plain : pg_state :=
    body_fun jax_grad fun_ params_fun prox params_prox stepsize maxls false
      implicit_diff (init_args init false) in
  let accelerated : apg_state :=
    body_fun jax_grad fun_ params_fun prox params_prox stepsize maxls true
      implicit_diff (init_args init true) in
  apg_x accelerated = pg_x plain
  /\ apg_stepsize accelerated = pg_stepsize plain
  /\ apg_iter_num accelerated = 1
  /\ pg_iter_num plain = 1.
Proof.
  cbv zeta. unfold body_fun, _make_pg_body_fun, init_args.
  pose proof (body_pg_fields jax_grad fun_ params_fun prox params_prox
                stepsize maxls (negb implicit_diff) f_half
                (PGState 0 init f_one f_inf)) as Ep.
  pose proof (body_apg_fields jax_grad fun_ params_fun prox params_prox
                stepsize maxls (negb implicit_diff) f_half
                (APGState 0 init init f_one f_one f_inf)) as Ea.
  cbv zeta in Ep, Ea. rewrite Ep, Ea. simpl. repeat split.
Qed.

(** The momentum coefficients do not depend on the problem: after [k]
    accelerated iterations the coefficient is the [k]-th term of the
    sequence [t_0 = 1], [t_(j+1) = 0.5 * (1 + sqrt(1 + 4 * t_j * t_j))],
    whatever the objective, the prox, the points and the step sizes. *)
Theorem momentum_sequence (k : nat) :
  let s : apg_state :=
    Nat.iter k
      (body_fun jax_grad fun_ params_fun prox params_prox stepsize maxls true
         implicit_diff)
      (init_args init true) in
  apg_t s
  = Nat.iter k
      (fun t => f_half * (f_one + fsqrt (f_one + f_four * (t * t)))) f_one
  /\ apg_iter_num s = k.
Proof.
  cbv zeta. induction k as [|k [IHt IHn]]; [split; reflexivity|].
  rewrite !Nat.iter_succ.
  remember (Nat.iter k
              (body_fun jax_grad fun_ params_fun prox params_prox stepsize
                 maxls true implicit_diff)
              (init_args init true)) as prev eqn:Eprev in *.
  unfold body_fun, _make_pg_body_fun.
  pose proof (body_apg_fields jax_grad fun_ params_fun prox params_prox
                stepsize maxls (negb implicit_diff) f_half prev) as E.
  cbv zeta in E. rewrite E. simpl. rewrite IHt, IHn. split; [reflexivity|lia].
Qed.
End TrajectoryFacts.

(** ** Exits of the outer loop *)

Section ExitFacts.
Context {S : Scalar}.
Local Open Scope sc_scope.
Variables (ParamsFun ParamsProx : Type).
Variable jax_grad : (Point -> ParamsFun -> F) -> Point -> ParamsFun -> Point.
Variable fun_ : Point -> ParamsFun -> F.
Variable init : Point.
Variable params_fun : ParamsFun.
Variable prox : Prox ParamsProx.
Variable params_prox : ParamsProx.
Variable stepsize : F.
Variable maxiter : nat.
Variable maxls : nat.
Variable tol : F.
Variable verbose : bool.
Variable implicit_diff : bool.

(** When the tolerance is not below [+inf] (it is [+inf] or NaN) the loop
    predicate fails at entry: whatever [maxiter], no iteration runs and the
    solver returns the initial point, with iteration count [0] and error
    [+inf] when information is requested. *)
Theorem tolerance_not_below_inf (acceleration ret_info : bool) :
  (f_inf >? tol) = false ->
  pg_loop jax_grad fun_ init params_fun prox params_prox stepsize maxiter
    maxls tol acceleration verbose implicit_diff
  = init_args init acceleration
  /\ _proximal_gradient jax_grad fun_ init params_fun prox params_prox
       stepsize maxiter maxls tol acceleration verbose implicit_diff ret_info
     = if ret_info
       then SolutionInfo (MkOptimizeResults init 0%nat f_inf)
       else Solution init.
Proof.
  intros H.
  assert (E : pg_loop jax_grad fun_ init params_fun prox params_prox stepsize
                maxiter maxls tol acceleration verbose implicit_diff
              = init_args init acceleration).
  { rewrite pg_loop_eager. apply while_loop_eager_stop.
    unfold cond_fun, init_args. destruct acceleration; exact H. }
  split; [exact E|]. unfold _proximal_gradient. rewrite E.
  unfold init_args. destruct acceleration; reflexivity.
Qed.

(** A run that ended before the cap is not changed by a larger cap: if the
    iteration count of the result is below [maxiter], every
    [maxiter' >= maxiter] gives the same final state. *)
Theorem larger_maxiter_inert (acceleration : bool) (maxiter' : nat) :
  (st_iter_num acceleration
     (pg_loop jax_grad fun_ init params_fun prox params_prox stepsize maxiter
        maxls tol acceleration verbose implicit_diff) < maxiter)%nat ->
  (maxiter <= maxiter')%nat ->
  pg_loop jax_grad fun_ init params_fun prox params_prox stepsize maxiter'
    maxls tol acceleration verbose implicit_diff
  = pg_loop jax_grad fun_ init params_fun prox params_prox stepsize maxiter
      maxls tol acceleration verbose implicit_diff.
Proof.
  rewrite pg_loop_iter_num, !pg_loop_eager.
  apply while_loop_eager_stable.
Qed.

(** A run that iterated found its tolerance to be a number. *)
Lemma iterated_tol_is_number (acceleration : bool) :
  CompareLaws S ->
  (1 <= st_iter_num acceleration
          (pg_loop jax_grad fun_ init params_fun prox params_prox stepsize
             maxiter maxls tol acceleration verbose implicit_diff))%nat ->
  is_number tol = true.
Proof.
  intros L. rewrite pg_loop_iter_num. intros Hn.
  apply (while_loop_steps_cond _ _ _ _ (j := 0)) in Hn. simpl in Hn.
  unfold cond_fun, init_args in Hn.
  apply (lt_is_number L tol f_inf). destruct acceleration; exact Hn.
Qed.

(** The error of a run that ended before the cap fails the predicate. *)
Lemma early_exit_error (acceleration : bool) :
  (st_iter_num acceleration
     (pg_loop jax_grad fun_ init params_fun prox params_prox stepsize maxiter
        maxls tol acceleration verbose implicit_diff) < maxiter)%nat ->
  (st_error acceleration
     (pg_loop jax_grad fun_ init params_fun prox params_prox stepsize maxiter
        maxls tol acceleration verbose implicit_diff) >? tol) = false.
Proof.
  rewrite pg_loop_iter_num, pg_loop_eager. intros Hn.
  destruct (while_loop_exit (cond_fun tol acceleration)
              (body_fun jax_grad fun_ params_fun prox params_prox stepsize
                 maxls acceleration implicit_diff)
              maxiter (init_args init acceleration)) as [Hcap|Hexit];
    [lia|exact Hexit].
Qed.

(** With acceleration, a run that iterated and ended before the cap returns
    a point that meets the stopping criterion: the fixed-point residual of
    the returned point, with the gradient taken there, is the reported error
    and is [<= tol], unless it is NaN. *)
Theorem accelerated_exit_certificate :
  CompareLaws S ->
  let res : apg_state :=
    pg_loop jax_grad fun_ init params_fun prox params_prox stepsize maxiter
      maxls tol true verbose implicit_diff in
  let residual :=
    error_fun prox params_prox (apg_x res)
      (jax_grad fun_ (apg_x res) params_fun) in
  (1 <= apg_iter_num res)%nat ->
  (apg_iter_num res < maxiter)%nat ->
  apg_error res = residual
  /\ ((residual <=? tol) = true \/ is_number residual = false).
Proof.
  intros L. cbv zeta. intros H1 Hcap.
  pose proof (iterated_tol_is_number true L H1) as Htol.
  pose proof (early_exit_error true Hcap) as Hexit. simpl st_error in Hexit.
  assert (E : apg_error
                (pg_loop jax_grad fun_ init params_fun prox params_prox
                   stepsize maxiter maxls tol true verbose implicit_diff)
              = error_fun prox params_prox
                  (apg_x (pg_loop jax_grad fun_ init params_fun prox
                            params_prox stepsize maxiter maxls tol true
                            verbose implicit_diff))
                  (jax_grad fun_
                     (apg_x (pg_loop jax_grad fun_ init params_fun prox
                               params_prox stepsize maxiter maxls tol true
                               verbose implicit_diff)) params_fun)).
  { rewrite (pg_loop_last_step jax_grad fun_ init params_fun prox
               params_prox stepsize maxiter maxls tol verbose implicit_diff
               true H1).
    unfold body_fun, _make_pg_body_fun.
    match goal with |- context [body_fun_accelerated_proximal_gradient
                                  _ _ _ _ _ _ _ _ _ ?p] =>
      pose proof (body_apg_fields jax_grad fun_ params_fun prox params_prox
                    stepsize maxls (negb implicit_diff) f_half p) as E
    end.
    cbv zeta in E. unfold body_fun, _make_pg_body_fun in E.
    rewrite E. reflexivity. }
  split; [exact E|]. rewrite <- E.
  destruct (is_number (apg_error _)) eqn:He; [left|now right].
  now apply (not_lt_le L).
Qed.

(** Without acceleration, a run that iterated and ended before the cap
    returns the point one proximal-gradient iteration past the iterate that
    meets the stopping criterion: the reported error is the fixed-point
    residual of the previous iterate and is [<= tol], unless it is NaN. *)
Theorem plain_exit_certificate :
  CompareLaws S ->
  let body := body_fun jax_grad fun_ params_fun prox params_prox stepsize
                maxls false implicit_diff in
  let res : pg_state :=
    pg_loop jax_grad fun_ init params_fun prox params_prox stepsize maxiter
      maxls tol false verbose implicit_diff in
  let prev : pg_state :=
    Nat.iter (pg_iter_num res - 1) body (init_args init false) in
  let residual :=
    error_fun prox params_prox (pg_x prev)
      (jax_grad fun_ (pg_x prev) params_fun) in
  (1 <= pg_iter_num res)%nat ->
  (pg_iter_num res < maxiter)%nat ->
  res = body prev
  /\ pg_error res = residual
  /\ ((residual <=? tol) = true \/ is_number residual = false).
Proof.
  intros L. cbv zeta. intros H1 Hcap.
  pose proof (iterated_tol_is_number false L H1) as Htol.
  pose proof (early_exit_error false Hcap) as Hexit. simpl st_error in Hexit.
  pose proof (pg_loop_last_step jax_grad fun_ init params_fun prox
                params_prox stepsize maxiter maxls tol verbose implicit_diff
                false H1) as Elast.
  simpl st_iter_num in Elast.
  split; [exact Elast|].
  assert (E : pg_error
                (pg_loop jax_grad fun_ init params_fun prox params_prox
                   stepsize maxiter maxls tol false verbose implicit_diff)
              = error_fun prox params_prox
                  (pg_x (Nat.iter
                           (pg_iter_num
                              (pg_loop jax_grad fun_ init params_fun prox
                                 params_prox stepsize maxiter maxls tol false
                                 verbose implicit_diff) - 1)
                           (body_fun jax_grad fun_ params_fun prox
                              params_prox stepsize maxls false implicit_diff)
                           (init_args init false)))
                  (jax_grad fun_
                     (pg_x (Nat.iter
                              (pg_iter_num
                                 (pg_loop jax_grad fun_ init params_fun prox
                                    params_prox stepsize maxiter maxls tol
                                    false verbose implicit_diff) - 1)
                              (body_fun jax_grad fun_ params_fun prox
                                 params_prox stepsize maxls false
                                 implicit_diff)
                              (init_args init false))) params_fun)).
  { rewrite Elast at 1. unfold body_fun at 1, _make_pg_body_fun.
    match goal with |- context [body_fun_proximal_gradient
                                  _ _ _ _ _ _ _ _ _ ?p] =>
      pose proof (body_pg_fields jax_grad fun_ params_fun prox params_prox
                    stepsize maxls (negb implicit_diff) f_half p) as E
    end.
    cbv zeta in E. rewrite E. reflexivity. }
  split; [exact E|]. rewrite <- E.
  destruct (is_number (pg_error _)) eqn:He; [left|now right].
  now apply (not_lt_le L).
Qed.
End ExitFacts.

(** ** Where the loops stop *)

(** The loop stops at the first state that fails the predicate, or at the
    cap. *)
Lemma while_loop_eager_first (T : Type) (cond_fun : T -> bool)
    (body_fun : T -> T) (n : nat) (val : T) (k : nat) :
  k <= n ->
  (forall j, j < k -> cond_fun (Nat.iter j body_fun val) = true) ->
  k = n \/ cond_fun (Nat.iter k body_fun val) = false ->
  while_loop_eager cond_fun body_fun val n = Nat.iter k body_fun val
  /\ while_loop_steps cond_fun body_fun val n = k.
Proof.
  revert val k. induction n as [|n IH]; intros val k Hk Hpass Hstop.
  - assert (k = 0) as -> by lia. split; reflexivity.
  - simpl. destruct k as [|k].
    + destruct Hstop as [Hstop|Hstop]; [discriminate|].
      simpl in Hstop. rewrite Hstop. split; reflexivity.
    + assert (H0 : cond_fun val = true) by (apply (Hpass 0); lia).
      rewrite H0, Nat.iter_succ_r.
      destruct (IH (body_fun val) k) as [E1 E2].
      * lia.
      * intros j Hj. rewrite <- Nat.iter_succ_r. apply Hpass. lia.
      * destruct Hstop as [Hstop|Hstop]; [left; lia|right].
        now rewrite <- Nat.iter_succ_r.
      * split; [exact E1|now rewrite E2].
Qed.

Section StopFacts.
Context {S : Scalar}.
Local Open Scope sc_scope.
Hypothesis compare_laws : CompareLaws S.

(** A comparison with something that is not a number is false. *)
Lemma gt_not_number (a b : F) :
  is_number a = false \/ is_number b = false -> (a >? b) = false.
Proof.
  intros H. destruct (a >? b) eqn:E; [|reflexivity].
  apply (lt_is_number compare_laws) in E. destruct E as [Eb Ea].
  destruct H as [H|H]; congruence.
Qed.

Variables (ParamsFun ParamsProx : Type).
Variable fun_ : Point -> ParamsFun -> F.
Variable params_fun : ParamsFun.

(** When a side of the rejection test is NaN at the first candidate (the
    objective is NaN there, say), the line search does not shrink at all: it
    returns the first candidate at the trial step size after no attempt,
    whatever [maxls]. *)
Theorem linesearch_accepts_nan (prox_grad : Point -> Point -> F -> Point)
    (maxls : nat) (stepfactor : F) (unroll : bool) (curr_x : Point)
    (curr_x_fun_val : F) (curr_x_fun_grad : Point) (curr_stepsize : F) :
  let next_x := prox_grad curr_x curr_x_fun_grad curr_stepsize in
  let lhs := fun_decrease fun_ params_fun curr_x_fun_val next_x
               curr_stepsize in
  let rhs := condition curr_x curr_x_fun_grad next_x curr_stepsize + f_eps in
  is_number lhs = false \/ is_number rhs = false ->
  linesearch fun_ params_fun prox_grad maxls stepfactor unroll curr_x
    curr_x_fun_val curr_x_fun_grad curr_stepsize
  = (next_x, curr_stepsize)
  /\ ls_attempts fun_ params_fun prox_grad maxls stepfactor curr_x
       curr_x_fun_val curr_x_fun_grad curr_stepsize = 0%nat.
Proof.
  cbv zeta. intros H. unfold linesearch, ls_attempts.
  rewrite while_loop_eq_eager.
  apply (@while_loop_eager_first _ _ _ _ _ 0); [lia|intros j Hj; lia|].
  right. simpl. now apply gt_not_number.
Qed.

(** The cap of the line search is soft: when the test rejects the first
    [maxls] candidates, the search returns the next one, at the trial step
    size shrunk [maxls] times, without testing it. *)
Theorem linesearch_cap_returns_last
    (prox_grad : Point -> Point -> F -> Point) (maxls : nat) (stepfactor : F)
    (unroll : bool) (curr_x : Point) (curr_x_fun_val : F)
    (curr_x_fun_grad : Point) (curr_stepsize : F) :
  let shrunk (j : nat) : F :=
    Nat.iter j (fun s => s * stepfactor) curr_stepsize in
  (forall j, (j < maxls)%nat ->
     ls_cond_fun fun_ params_fun curr_x curr_x_fun_val curr_x_fun_grad
       (prox_grad curr_x curr_x_fun_grad (shrunk j), shrunk j) = true) ->
  linesearch fun_ params_fun prox_grad maxls stepfactor unroll curr_x
    curr_x_fun_val curr_x_fun_grad curr_stepsize
  = (prox_grad curr_x curr_x_fun_grad (shrunk maxls), shrunk maxls)
  /\ ls_attempts fun_ params_fun prox_grad maxls stepfactor curr_x
       curr_x_fun_val curr_x_fun_grad curr_stepsize = maxls.
Proof.
  cbv zeta. intros H. unfold linesearch, ls_attempts.
  rewrite while_loop_eq_eager, <- ls_body_fun_iter.
  apply while_loop_eager_first; [lia| |now left].
  intros j Hj. rewrite ls_body_fun_iter. now apply H.
Qed.

Variable jax_grad : (Point -> ParamsFun -> F) -> Point -> ParamsFun -> Point.
Variable init : Point.
Variable prox : Prox ParamsProx.
Variable params_prox : ParamsProx.
Variable stepsize : F.
Variable maxiter : nat.
Variable maxls : nat.
Variable tol : F.
Variable acceleration : bool.
Variable verbose : bool.
Variable implicit_diff : bool.

(** A NaN error stops the solver: if the first [k <= maxiter] states keep
    the loop going and the error of the state after [k] iterations is NaN,
    the solver ends there, with iteration count [k], however far [k] is
    from [maxiter]. *)
Theorem nan_error_stops (k : nat) :
  let body := body_fun jax_grad fun_ params_fun prox params_prox stepsize
                maxls acceleration implicit_diff in
  let state (j : nat) : State acceleration :=
    Nat.iter j body (init_args init acceleration) in
  (k <= maxiter)%nat ->
  (forall j, (j < k)%nat -> (st_error acceleration (state j) >? tol) = true) ->
  is_number (st_error acceleration (state k)) = false ->
  pg_loop jax_grad fun_ init params_fun prox params_prox stepsize maxiter
    maxls tol acceleration verbose implicit_diff
  = state k
  /\ st_iter_num acceleration
       (pg_loop jax_grad fun_ init params_fun prox params_prox stepsize
          maxiter maxls tol acceleration verbose implicit_diff) = k.
Proof.
  cbv zeta. intros Hk Hpass Hnan.
  rewrite pg_loop_iter_num, pg_loop_eager.
  apply while_loop_eager_first; [exact Hk|exact Hpass|].
  right. unfold cond_fun. apply gt_not_number. now left.
Qed.
End StopFacts.

(** ** The further properties on binary64 runs *)

(** The scenario ends before the cap, with and without acceleration. *)
Lemma quadratic_loop_iterations :
  pg_iter_num
    (quadratic_loop [0%float] 0.5%float 0x1.0c6f7a0b5ed8dp-20%float false) = 23
  /\ apg_iter_num
       (quadratic_loop [0%float] 0.5%float 0x1.0c6f7a0b5ed8dp-20%float true)
     = 28.
Proof. split; vm_compute; reflexivity. Qed.

Lemma quadratic_plain_iterated :
  1 <= pg_iter_num
         (quadratic_loop [0%float] 0.5%float 0x1.0c6f7a0b5ed8dp-20%float false)
  /\ pg_iter_num
       (quadratic_loop [0%float] 0.5%float 0x1.0c6f7a0b5ed8dp-20%float false)
     < 500.
Proof. rewrite (proj1 quadratic_loop_iterations). lia. Qed.

Lemma quadratic_accelerated_iterated :
  1 <= apg_iter_num
         (quadratic_loop [0%float] 0.5%float 0x1.0c6f7a0b5ed8dp-20%float true)
  /\ apg_iter_num
       (quadratic_loop [0%float] 0.5%float 0x1.0c6f7a0b5ed8dp-20%float true)
     < 500.
Proof. rewrite (proj2 quadratic_loop_iterations). lia. Qed.

(** Step sizes [0] and [-1] both select the line search and give the same
    result on the quadratic. *)
Lemma nonpositive_stepsize_value_inert_witness :
  (0 <=? 0)%float = true
  /\ (-1 <=? 0)%float = true
  /\ @_proximal_gradient binary64 unit unit quadratic_grad quadratic
       [0%float] tt prox_none tt 0%float 500 15 0x1.0c6f7a0b5ed8dp-20%float
       true false true true
     = @_proximal_gradient binary64 unit unit quadratic_grad quadratic
         [0%float] tt prox_none tt (-1)%float 500 15
         0x1.0c6f7a0b5ed8dp-20%float true false true true.
Proof.
  split; [reflexivity|]. split; [reflexivity|].
  exact (@nonpositive_stepsize_value_inert binary64 unit unit quadratic_grad
           quadratic tt prox_none tt [0%float] 500
           0x1.0c6f7a0b5ed8dp-20%float true 0%float (-1)%float 15 false true
           true eq_refl eq_refl).
Defined.

(** At the fixed step size [0.5], [maxls = 15] and [maxls = 0] give the same
    result on the quadratic. *)
Lemma fixed_step_maxls_inert_witness :
  (0.5 <=? 0)%float = false
  /\ @_proximal_gradient binary64 unit unit quadratic_grad quadratic
       [0%float] tt prox_none tt 0.5%float 500 15
       0x1.0c6f7a0b5ed8dp-20%float false false true true
     = @_proximal_gradient binary64 unit unit quadratic_grad quadratic
         [0%float] tt prox_none tt 0.5%float 500 0
         0x1.0c6f7a0b5ed8dp-20%float false false true true.
Proof.
  split; [reflexivity|].
  exact (@fixed_step_maxls_inert binary64 unit unit quadratic_grad quadratic
           tt prox_none tt [0%float] 500 0x1.0c6f7a0b5ed8dp-20%float false
           0.5%float 15 0 false true true eq_refl).
Defined.

(** On the quadratic at the fixed step size [0.5] the returned point is the
    iterate of [x |-> x - 0.5 * (x - 3)] numbered by the iteration count. *)
Lemma fixed_step_trajectory_witness :
  CompareLaws binary64
  /\ (0 <? 0.5)%float = true
  /\ let res :=
       quadratic_loop [0%float] 0.5%float 0x1.0c6f7a0b5ed8dp-20%float false in
     pg_x res
     = Nat.iter (pg_iter_num res)
         (fun x => prox_none
                     (@tree_add_scalar_mul binary64 x (- 0.5)%float
                        (quadratic_grad quadratic x tt)) tt 0.5%float)
         [0%float].
Proof.
  split; [exact binary64_compare_laws|]. split; [reflexivity|].
  exact (proj1 (proj2 (@fixed_step_trajectory binary64 unit unit
                         quadratic_grad quadratic [0%float] tt prox_none tt
                         0.5%float 500 15 0x1.0c6f7a0b5ed8dp-20%float false
                         true binary64_compare_laws eq_refl))).
Defined.

(** With [tol = NaN] the solver returns the initial point at once. *)
Lemma tolerance_not_below_inf_witness :
  (nan <? infinity)%float = false
  /\ @_proximal_gradient binary64 unit unit quadratic_grad quadratic
       [0%float] tt prox_none tt 0.5%float 500 15 nan false false true true
     = SolutionInfo (@MkOptimizeResults binary64 [0%float] 0 infinity).
Proof.
  split; [reflexivity|].
  exact (proj2 (@tolerance_not_below_inf binary64 unit unit quadratic_grad
                  quadratic [0%float] tt prox_none tt 0.5%float 500 15 nan
                  false true false true eq_refl)).
Defined.

(** The scenario stops after 23 iterations; the cap [1000] gives the same
    final state as the cap [500]. *)
Lemma larger_maxiter_inert_witness :
  pg_iter_num
    (quadratic_loop [0%float] 0.5%float 0x1.0c6f7a0b5ed8dp-20%float false)
  < 500
  /\ 500 <= 1000
  /\ @pg_loop binary64 unit unit quadratic_grad quadratic [0%float] tt
       prox_none tt 0.5%float 1000 15 0x1.0c6f7a0b5ed8dp-20%float false false
       true
     = quadratic_loop [0%float] 0.5%float 0x1.0c6f7a0b5ed8dp-20%float false.
Proof.
  split; [exact (proj2 quadratic_plain_iterated)|]. split; [lia|].
  apply (@larger_maxiter_inert binary64 unit unit quadratic_grad quadratic
           [0%float] tt prox_none tt 0.5%float 500 15
           0x1.0c6f7a0b5ed8dp-20%float false true false 1000).
  - exact (proj2 quadratic_plain_iterated).
  - lia.
Defined.

(** The accelerated scenario stops early at a point whose residual is
    within the tolerance. *)
Lemma accelerated_exit_certificate_witness :
  CompareLaws binary64
  /\ let res :=
       quadratic_loop [0%float] 0.5%float 0x1.0c6f7a0b5ed8dp-20%float true in
     let residual :=
       @error_fun binary64 unit prox_none tt (apg_x res)
         (quadratic_grad quadratic (apg_x res) tt) in
     1 <= apg_iter_num res
     /\ apg_iter_num res < 500
     /\ apg_error res = residual
     /\ ((residual <=? 0x1.0c6f7a0b5ed8dp-20)%float = true
         \/ @is_number binary64 residual = false).
Proof.
  split; [exact binary64_compare_laws|]. cbv zeta.
  split; [exact (proj1 quadratic_accelerated_iterated)|].
  split; [exact (proj2 quadratic_accelerated_iterated)|].
  exact (@accelerated_exit_certificate binary64 unit unit quadratic_grad
           quadratic [0%float] tt prox_none tt 0.5%float 500 15
           0x1.0c6f7a0b5ed8dp-20%float false true binary64_compare_laws
           (proj1 quadratic_accelerated_iterated)
           (proj2 quadratic_accelerated_iterated)).
Defined.

(** The plain scenario stops early one iteration past the iterate whose
    residual is within the tolerance. *)
Lemma plain_exit_certificate_witness :
  CompareLaws binary64
  /\ let body := @body_fun binary64 unit unit quadratic_grad quadratic tt
                   prox_none tt 0.5%float 15 false true in
     let res :=
       quadratic_loop [0%float] 0.5%float 0x1.0c6f7a0b5ed8dp-20%float false in
     let prev : @pg_state binary64 :=
       Nat.iter (pg_iter_num res - 1) body (@init_args binary64 [0%float] false)
     in
     let residual :=
       @error_fun binary64 unit prox_none tt (pg_x prev)
         (quadratic_grad quadratic (pg_x prev) tt) in
     1 <= pg_iter_num res
     /\ pg_iter_num res < 500
     /\ res = body prev
     /\ pg_error res = residual
     /\ ((residual <=? 0x1.0c6f7a0b5ed8dp-20)%float = true
         \/ @is_number binary64 residual = false).
Proof.
  split; [exact binary64_compare_laws|]. cbv zeta.
  split; [exact (proj1 quadratic_plain_iterated)|].
  split; [exact (proj2 quadratic_plain_iterated)|].
  exact (@plain_exit_certificate binary64 unit unit quadratic_grad quadratic
           [0%float] tt prox_none tt 0.5%float 500 15
           0x1.0c6f7a0b5ed8dp-20%float false true binary64_compare_laws
           (proj1 quadratic_plain_iterated)
           (proj2 quadratic_plain_iterated)).
Defined.

(** With [f = sqrt] from [x = 1] at the trial step size [4] the first
    candidate is [-1], where the objective is NaN: it is returned at once. *)
Lemma linesearch_accepts_nan_witness :
  CompareLaws binary64
  /\ @is_number binary64
       (@fun_decrease binary64 unit sqrt_sum tt 1%float
          (prox_grad_none [1%float] [0.5%float] 4%float) 4%float) = false
  /\ @linesearch binary64 unit sqrt_sum tt prox_grad_none 15 0.5%float false
       [1%float] 1%float [0.5%float] 4%float
     = (prox_grad_none [1%float] [0.5%float] 4%float, 4%float).
Proof.
  split; [exact binary64_compare_laws|]. split; [reflexivity|].
  exact (proj1 (@linesearch_accepts_nan binary64 binary64_compare_laws unit
                  sqrt_sum tt prox_grad_none 15 0.5%float false [1%float]
                  1%float [0.5%float] 4%float (or_introl eq_refl))).
Defined.

(** On the quadratic from [x = 0] the candidates at the step sizes [64] and
    [32] are rejected. *)
Lemma quadratic_rejects (j : nat) :
  j < 2 ->
  let s := Nat.iter j (fun s => (s * 0.5)%float) 64%float in
  @ls_cond_fun binary64 unit quadratic tt [0%float] 4.5%float [(-3)%float]
    (prox_grad_none [0%float] [(-3)%float] s, s) = true.
Proof.
  intros Hj. destruct j as [|[|j]]; [reflexivity|reflexivity|lia].
Qed.

(** With [maxls = 2] the search then returns the candidate at the step size
    [16], which the test would reject as well. *)
Lemma linesearch_cap_returns_last_witness :
  let r := @linesearch binary64 unit quadratic tt prox_grad_none 2 0.5%float
             false [0%float] 4.5%float [(-3)%float] 64%float in
  r = (prox_grad_none [0%float] [(-3)%float] 16%float, 16%float)
  /\ @ls_cond_fun binary64 unit quadratic tt [0%float] 4.5%float [(-3)%float]
       r = true.
Proof.
  cbv zeta.
  rewrite (proj1 (@linesearch_cap_returns_last binary64 unit quadratic tt
                    prox_grad_none 2 0.5%float false [0%float] 4.5%float
                    [(-3)%float] 64%float quadratic_rejects)).
  split; reflexivity.
Defined.

(** Minimising [sqrt(x)] from [x = 0.25] at the fixed step size [1]: the
    errors [+inf] and [1] keep the loop going, the third is NaN. *)
Lemma sqrt_sum_errors (j : nat) :
  j < 2 ->
  (0x1p-10 <? pg_error
                (Nat.iter j
                   (@body_fun binary64 unit unit sqrt_sum_grad sqrt_sum tt
                      prox_none tt 1%float 15 false true)
                   (@init_args binary64 [0.25%float] false)))%float = true.
Proof.
  intros Hj. destruct j as [|[|j]]; [reflexivity|reflexivity|lia].
Qed.

(** The solver stops there, after [2] of [500] iterations. *)
Lemma nan_error_stops_witness :
  2 <= 500
  /\ pg_iter_num (sqrt_sum_loop [0.25%float] 1%float 0x1p-10%float false) = 2.
Proof.
  split; [lia|].
  apply (@nan_error_stops binary64 binary64_compare_laws unit unit sqrt_sum
           tt sqrt_sum_grad [0.25%float] prox_none tt 1%float 500 15
           0x1p-10%float false false true 2).
  - lia.
  - exact sqrt_sum_errors.
  - reflexivity.
Defined.
